(** * Witsenhausen counterexample demo: the numerical engine and the table lookup

    A shallow embedding of [src/mathUtils.ts] (Simpson quadrature, the
    bisection inside [solveAffineLambda], golden-section search, the three
    cost formulas), of the lookup and the three chart memos of
    [src/App.tsx] with the chart ranges of [src/constants.tsx], and of the
    table generator [scripts/generateData.ts].

    Conventions of the embedding.
    - A JavaScript [number] is read as a real number: [+ - * /] are the field
      operations of [R], [Math.exp], [Math.cosh], [Math.sqrt], [Math.abs],
      [Math.PI] are [exp], [cosh], [sqrt], [Rabs], [PI], and [Math.pow x 2]
      is [x ^ 2].  Rounding, overflow and NaN of IEEE doubles are not part
      of this reading.  It stands for the code where the doubles stay
      finite and the quantities compared are well apart from the rounding
      unit, and the statements that depend on that carry the range as a
      hypothesis: [integrate] takes [n >= 1] (at [n = 0] the code divides by
      zero and returns an infinity or NaN), [calculateH] and
      [calculateCosts] take bounded arguments (a square overflows beyond
      about [1e154] and the code returns NaN), [goldenSectionSearch] takes a
      tolerance well above the spacing of doubles on its bracket (below it
      the bracket stalls at two adjacent doubles and the loop never ends),
      and the index functions take a value away from the half-way points
      between grid values.
    - [Module Binary64] replays [solveAffineLambda] and the affine cost of
      [calculateCosts] in binary64 arithmetic, to show what the code returns
      where the doubles overflow.
    - A loop counter or a number of intervals is a [nat].
    - A [while] loop is a [Fixpoint] on a [fuel] that counts evaluations of
      the loop condition; running out of fuel is [None].  A function that
      calls such a loop, directly or through a callback, returns an
      [option]; [None] never stands for a value of the program.
    - [x.toFixed(d)] read back as a number is the decimal with [d] digits
      nearest to [x], a tie going away from zero.  *)

From Stdlib Require Import PrimFloat.
From Stdlib Require Import Reals Lra Lia ZArith List Bool Zfloor.
Import ListNotations.

Set Warnings "-inexact-float".

Open Scope R_scope.

(** ** Computations that may fail to return *)

Definition ret {A : Type} (x : A) : option A := Some x.

Definition bind {A B : Type} (m : option A) (k : A -> option B) : option B :=
  match m with
  | Some x => k x
  | None => None
  end.

Notation "x <- m ;; k" := (bind m (fun x => k))
  (at level 61, m at next level, right associativity).

Module MathUtils.

(** ** Numerical integration: [integrate] *)

(** The body of [for (let i = 1; i < n; i++)]: [count] iterations are left,
    [i] is the loop counter and [sum] the accumulator. *)
Fixpoint integrate_loop (func : R -> option R) (min h : R)
    (i count : nat) (sum : R) : option R :=
  match count with
  | O => ret sum
  | S count' =>
      let x := min + INR i * h in
      fx <- func x ;;
      integrate_loop func min h (S i) count'
        (sum + fx * (if (i mod 2 =? 0)%nat then 2 else 4))
  end.

(** For [n >= 1] the step [(max - min) / n] is a real.  At [n = 0] the code
    divides by zero and returns an infinity or NaN, which no real stands
    for: the statements about [integrate] take [n >= 1]. *)
Definition integrate (func : R -> option R) (min max : R) (n : nat)
    : option R :=
  let h := (max - min) / INR n in
  fmin <- func min ;;
  fmax <- func max ;;
  sum <- integrate_loop func min h 1 (n - 1) (fmin + fmax) ;;
  ret (sum * h / 3).

(** ** The auxiliary function h(a): [calculateH] *)

(** The square [a * a] is exact here; in doubles it overflows for [|a|]
    above about [1.3e154], where the code returns NaN. *)
Definition calculateH (a : R) : option R :=
  if Req_dec_T a 0 then ret 0
  else
    let integrand := fun y : R => ret (exp (- 0.5 * y * y) / cosh (a * y)) in
    integralVal <- integrate integrand (- 10) 10 200 ;;
    ret (a * a * exp (- 0.5 * a * a) * integralVal).

(** ** The affine gain: [solveAffineLambda] *)

(** The local function [f] of [solveAffineLambda]. *)
Definition charEq (k sigma : R) (t : R) : R :=
  (t - sigma) * (1 + t * t) ^ 2 + t / (k * k).

(** [while (iter < 100) { ... }], with its [break].  The midpoints are exact
    here; in doubles the midpoint stops moving once the ends are adjacent
    (after about 53 halvings), and [k * k] underflows to 0 for tiny [k]. *)
Fixpoint bisection_loop (fuel : nat) (f : R -> R) (low high : R)
    (iter : nat) (mid : R) : option R :=
  match fuel with
  | O => None
  | S fuel' =>
      if (iter <? 100)%nat then
        let mid := (low + high) / 2 in
        if Rlt_dec (Rabs (f mid)) 1e-6 then ret mid
        else if Rlt_dec (f low * f mid) 0
             then bisection_loop fuel' f low mid (S iter) mid
             else bisection_loop fuel' f mid high (S iter) mid
      else ret mid
  end.

(** The body of [solveAffineLambda] once [f] is bound. *)
Definition solveAffineLambda_body (fuel : nat) (f : R -> R) (sigma : R)
    : option R :=
  let low := 0 in
  let high := sigma in
  let iter := 0%nat in
  let mid := 0 in
  if Rgt_dec (f low * f high) 0 then ret 0
  else
    mid <- bisection_loop fuel f low high iter mid ;;
    ret (mid / sigma).

Definition solveAffineLambda (fuel : nat) (k sigma : R) : option R :=
  solveAffineLambda_body fuel (charEq k sigma) sigma.

(** ** The lower bound: [phi], [goldenSectionSearch], [calculateVk],
    [calculateLowerBound] *)

Definition phi (x : R) : R := (1 / sqrt (2 * PI)) * exp (- 0.5 * x * x).

Definition GR : R := (sqrt 5 - 1) / 2.

(** [while (Math.abs(b - a) > tol) { ... }]; the result is the bracket at
    exit.  The width shrinks by [GR] at every iteration here; in doubles the
    bracket stalls at two adjacent doubles, so for a tolerance below their
    spacing the loop of the code never ends.  The call of [calculateVk]
    (tolerance [1e-4] on [-20, 20]) is far from that. *)
Fixpoint goldenSection_loop (fuel : nat) (f : R -> option R) (tol : R)
    (a b c d : R) : option (R * R) :=
  match fuel with
  | O => None
  | S fuel' =>
      if Rgt_dec (Rabs (b - a)) tol then
        fc <- f c ;;
        fd <- f d ;;
        let a' := if Rlt_dec fc fd then a else c in
        let b' := if Rlt_dec fc fd then d else b in
        goldenSection_loop fuel' f tol a' b'
          (b' - GR * (b' - a')) (a' + GR * (b' - a'))
      else ret (a, b)
  end.

Definition goldenSectionSearch (fuel : nat) (f : R -> option R)
    (a b tol : R) : option R :=
  let c := b - GR * (b - a) in
  let d := a + GR * (b - a) in
  ab <- goldenSection_loop fuel f tol a b c d ;;
  ret ((snd ab + fst ab) / 2).

(** The local function [costFunc] of [calculateVk]. *)
Definition costFunc (xi k : R) (a : R) : option R :=
  ha <- calculateH a ;;
  ret (k * k * (a - xi) ^ 2 + ha).

(** The call [goldenSectionSearch(costFunc, -20, 20)] leaves [tol] to its
    default, [1e-4]. *)
Definition calculateVk (fuel : nat) (xi k : R) : option R :=
  optimalA <- goldenSectionSearch fuel (costFunc xi k) (- 20) 20 1e-4 ;;
  costFunc xi k optimalA.

Definition calculateLowerBound (fuel : nat) (k sigma : R) : option R :=
  let integrand := fun z : R =>
    v <- calculateVk fuel (sigma * z) k ;;
    ret (phi z * v) in
  i <- integrate integrand 0 5 50 ;;
  ret (2 * i).

(** ** The costs: [calculateCosts] *)

Record CostResult : Type := mkCostResult {
  lambda : R;
  affineCost : R;
  nonlinCost : R;
  lowerBound : R
}.

(** The fields are reals, hence finite; where the doubles of the code
    overflow (see [Binary64] below) it returns NaN or an infinity. *)
Definition calculateCosts (fuel : nat) (k sigma : R) : option CostResult :=
  lambda <- solveAffineLambda fuel k sigma ;;
  let affineCost :=
    (k * k * sigma * sigma * (1 - lambda) ^ 2) +
    (sigma * sigma * lambda * lambda) / (1 + sigma * sigma * lambda * lambda) in
  let firstTerm := 2 * k * k * sigma * sigma * (1 - sqrt (2 / PI)) in
  secondTerm <- calculateH sigma ;;
  let nonlinCost := firstTerm + secondTerm in
  lowerBound <- calculateLowerBound fuel k sigma ;;
  ret (mkCostResult lambda affineCost nonlinCost lowerBound).

End MathUtils.

(** ** The lookup of [src/App.tsx]

    [costsData] is the table that [scripts/generateData.ts] writes to
    [src/data/costs.json]; the file itself is not part of the sources, so the
    table is an argument of the lookup. *)

Module App.

(** [metadata.k] and [metadata.sigma]: [{ min, max, step, values }]. *)
Record AxisMetadata : Type := mkAxisMetadata {
  min : R;
  max : R;
  step : R;
  values : list R
}.

(** A cell of [data], as [generateData.ts] pushes it. *)
Record Cell : Type := mkCell {
  affineCost : R;
  nonlinCost : R;
  lowerBound : R;
  lambda : R
}.

Record CostsData : Type := mkCostsData {
  metadata_k : AxisMetadata;
  metadata_sigma : AxisMetadata;
  data : list (list Cell)
}.

(** The object that the [results] memo returns. *)
Record Results : Type := mkResults {
  r_lambda : R;
  r_affineCost : R;
  r_nonlinCost : R;
  r_lowerBound : R;
  r_isCounterExample : bool
}.

(** How the evaluation of [results] ends: with a value, or with the
    [TypeError] of reading a property of [undefined]. *)
Inductive completion : Type :=
  | Return (r : Results)
  | TypeError.

(** [Math.round]: the nearest integer, halves towards plus infinity. *)
Definition Math_round (x : R) : Z := Zfloor (x + 1 / 2).

Section Lookup.

Variable costsData : CostsData.

(** The quotient [(k - min) / step] is exact here; the code rounds it to a
    double before [Math.round], so within a rounding unit of a half-way
    point between two grid values its index can differ by one. *)
Definition getKIndex (k : R) : Z :=
  let min := min (metadata_k costsData) in
  let step := step (metadata_k costsData) in
  Math_round ((k - min) / step).

Definition getSigmaIndex (s : R) : Z :=
  let min := min (metadata_sigma costsData) in
  let step := step (metadata_sigma costsData) in
  Math_round ((s - min) / step).

(** The memo [results] of [App], as a function of the state [k], [sigma].
    [data[0]] is evaluated only after [kIdx < data.length] has held, so the
    default of [nth 0] is never looked at.  A row shorter than [data[0]]
    makes [costs] undefined, and reading [costs.nonlinCost] throws. *)
Definition results (k sigma : R) : completion :=
  let kIdx := getKIndex k in
  let sIdx := getSigmaIndex sigma in
  if ((kIdx >=? 0) && (kIdx <? Z.of_nat (length (data costsData))) &&
      (sIdx >=? 0) &&
      (sIdx <? Z.of_nat (length (nth 0 (data costsData) []))))%Z
  then
    match nth_error (nth (Z.to_nat kIdx) (data costsData) [])
                    (Z.to_nat sIdx) with
    | Some costs =>
        Return (mkResults (lambda costs) (affineCost costs)
                  (nonlinCost costs) (lowerBound costs)
                  (if Rlt_dec (nonlinCost costs) (affineCost costs)
                   then true else false))
    | None => TypeError
    end
  else Return (mkResults 0 0 0 0 false).

End Lookup.

End App.

(** ** The formulas of the specification

    These definitions follow the words of the specification; the theorems
    below compare them with the embedding of the source. *)

Module Spec.

(** Weight of the interior node of index [i]: 4 at odd, 2 at even indices. *)
Definition simpson_weight (i : nat) : R := if Nat.odd i then 4 else 2.

(** The weighted sum over the interior nodes [i, i+1, ..., i+count-1]. *)
Definition interior_sum (f : R -> R) (a h : R) (i count : nat) : R :=
  fold_right Rplus 0
    (map (fun j => simpson_weight j * f (a + INR j * h)) (seq i count)).

(** Composite Simpson rule: step [h = (b - a) / n], the endpoints once, the
    interior nodes with their weights, the total multiplied by [h / 3]. *)
Definition simpson (f : R -> R) (a b : R) (n : nat) : R :=
  let h := (b - a) / INR n in
  (f a + f b + interior_sum f a h 1 (n - 1)) * (h / 3).

(** The auxiliary function: [h 0 = 0], and for [a <> 0] the product of
    [a² exp(-a²/2)] with the quadrature of [exp(-y²/2) / cosh (a y)] over
    [-10, 10] with [n = 200]. *)
Definition h (a : R) : R :=
  if Req_dec_T a 0 then 0
  else a ^ 2 * exp (- (a ^ 2) / 2) *
       simpson (fun y => exp (- (y ^ 2) / 2) / cosh (a * y)) (- 10) 10 200.

(** The standard normal density. *)
Definition phi (z : R) : R := (1 / sqrt (2 * PI)) * exp (- (z ^ 2) / 2).

(** Bisection: at each iteration the midpoint is computed, the search stops
    when [|f mid| < tol], otherwise the bracket is narrowed to the half with
    the sign change; after [maxIter] iterations the last midpoint is the
    answer. [last] is the answer when no iteration is left. *)
Fixpoint bisection (f : R -> R) (tol : R) (maxIter : nat)
    (low high last : R) : R :=
  match maxIter with
  | O => last
  | S m =>
      let mid := (low + high) / 2 in
      if Rlt_dec (Rabs (f mid)) tol then mid
      else if Rlt_dec (f low * f mid) 0
           then bisection f tol m low mid mid
           else bisection f tol m mid high mid
  end.

(** The characteristic equation of the optimal affine gain. *)
Definition characteristic (k sigma t : R) : R :=
  (t - sigma) * (1 + t ^ 2) ^ 2 + t / k ^ 2.

(** The golden ratio fraction of the probes. *)
Definition golden : R := (sqrt 5 - 1) / 2.

(** Golden-section search as a relation between a bracket and the point it
    returns: the bracket [a, b] with probes [b - golden (b - a)] and
    [a + golden (b - a)] is replaced by the sub-bracket on the side of the
    lower probe until its width is less than [tol]; the answer is the
    midpoint of the last bracket. *)
Inductive golden_section (f : R -> R) (tol : R) : R -> R -> R -> Prop :=
  | gs_stop a b :
      Rabs (b - a) < tol ->
      golden_section f tol a b ((a + b) / 2)
  | gs_left a b x :
      tol <= Rabs (b - a) ->
      f (b - golden * (b - a)) < f (a + golden * (b - a)) ->
      golden_section f tol a (a + golden * (b - a)) x ->
      golden_section f tol a b x
  | gs_right a b x :
      tol <= Rabs (b - a) ->
      ~ f (b - golden * (b - a)) < f (a + golden * (b - a)) ->
      golden_section f tol (b - golden * (b - a)) b x ->
      golden_section f tol a b x.

(** The function minimised for the lower bound, and the value [Vk] it takes
    at the point returned by the search over [-20, 20] with tolerance
    [1e-4]. *)
Definition stage_cost (xi k a : R) : R := k ^ 2 * (a - xi) ^ 2 + h a.

Definition is_Vk (xi k v : R) : Prop :=
  exists a, golden_section (stage_cost xi k) 1e-4 (- 20) 20 a /\
            v = stage_cost xi k a.

(** A polynomial of degree at most 3 with its antiderivative. *)
Definition cubic (c0 c1 c2 c3 x : R) : R :=
  c0 + c1 * x + c2 * x ^ 2 + c3 * x ^ 3.

Definition cubic_primitive (c0 c1 c2 c3 x : R) : R :=
  c0 * x + c1 * x ^ 2 / 2 + c2 * x ^ 3 / 3 + c3 * x ^ 4 / 4.

End Spec.

Import MathUtils.

(** A table with the axes of [generateData.ts] and a single cell. *)
Definition one_cell_table : App.CostsData :=
  App.mkCostsData
    (App.mkAxisMetadata 0.01 1 0.01 [0.01])
    (App.mkAxisMetadata 0.5 10 0.1 [0.5])
    [[App.mkCell 1 1 1 1]].

(** The value that [calculateVk] returns, as a function of [xi]. *)
Definition Vk_value (fuel : nat) (k xi : R) : R :=
  match calculateVk fuel xi k with
  | Some v => v
  | None => 0
  end.

(** ** Numbers printed with a fixed number of decimals

    Every [x.toFixed(d)] of the sources whose value matters is read back as a
    number ([parseFloat]) or only displayed; the string is modelled by the
    number it denotes. *)

Module JS.

(** The number denoted by [x.toFixed(digits)]: the sign is set apart, a
    magnitude of [1e21] or more is printed as it is, and otherwise the
    magnitude is replaced by [n / 10^digits] for the integer [n] closest to
    it, the larger one of two. *)
Definition toFixed_value (x : R) (digits : nat) : R :=
  let round := fun m : R =>
    if Rle_dec 1e21 m then m
    else IZR (Zfloor (m * 10 ^ digits + 1 / 2)) / 10 ^ digits in
  if Rlt_dec x 0 then - round (- x) else round x.

End JS.

(** ** The table generator of [scripts/generateData.ts]

    [console.log] and the write of the file are left out: [generate] returns
    the object [output] that is written to [src/data/costs.json]. *)

Module GenerateData.

Definition K_MIN : R := 0.01.
Definition K_MAX : R := 1.0.
Definition K_STEP : R := 0.01.

Definition SIGMA_MIN : R := 0.5.
Definition SIGMA_MAX : R := 10.0.
Definition SIGMA_STEP : R := 0.1.

(** [const toFixed = (n) => parseFloat(n.toFixed(2))]. *)
Definition toFixed (n : R) : R := JS.toFixed_value n 2.

(** [for (let k = MIN; k <= MAX + STEP / 2; k += STEP) values.push(toFixed(k))],
    the loop of [kValues] and of [sigmaValues]. *)
Fixpoint values_loop (fuel : nat) (k MAX STEP : R) (values : list R)
    : option (list R) :=
  match fuel with
  | O => None
  | S fuel' =>
      if Rle_dec k (MAX + STEP / 2)
      then values_loop fuel' (k + STEP) MAX STEP (values ++ [toFixed k])
      else ret values
  end.

(** The object pushed on [row]. *)
Definition cell_of (result : CostResult) : App.Cell :=
  App.mkCell
    (JS.toFixed_value (affineCost result) 6)
    (JS.toFixed_value (nonlinCost result) 6)
    (JS.toFixed_value (lowerBound result) 6)
    (JS.toFixed_value (lambda result) 6).

(** [for (let j = 0; j < sigmaValues.length; j++)]: the values that are
    left are the argument. *)
Fixpoint row_loop (fuel : nat) (k : R) (sigmaValues : list R)
    (row : list App.Cell) : option (list App.Cell) :=
  match sigmaValues with
  | [] => ret row
  | sigma :: rest =>
      result <- calculateCosts fuel k sigma ;;
      row_loop fuel k rest (row ++ [cell_of result])
  end.

(** [for (let i = 0; i < kValues.length; i++)]. *)
Fixpoint grid_loop (fuel : nat) (kValues sigmaValues : list R)
    (costsGrid : list (list App.Cell)) : option (list (list App.Cell)) :=
  match kValues with
  | [] => ret costsGrid
  | k :: rest =>
      row <- row_loop fuel k sigmaValues [] ;;
      grid_loop fuel rest sigmaValues (costsGrid ++ [row])
  end.

Definition generate (fuel : nat) : option App.CostsData :=
  kValues <- values_loop fuel K_MIN K_MAX K_STEP [] ;;
  sigmaValues <- values_loop fuel SIGMA_MIN SIGMA_MAX SIGMA_STEP [] ;;
  costsGrid <- grid_loop fuel kValues sigmaValues [] ;;
  ret (App.mkCostsData
         (App.mkAxisMetadata K_MIN K_MAX K_STEP kValues)
         (App.mkAxisMetadata SIGMA_MIN SIGMA_MAX SIGMA_STEP sigmaValues)
         costsGrid).

End GenerateData.

(** ** The chart ranges of [src/constants.tsx] *)

Module CHART_CONFIG.

Module STRATEGIES.
Definition X_RANGE_MULTIPLIER : R := 2.5.
End STRATEGIES.

Module COST_VS_SIGMA.
Definition X_MIN : R := 0.5.
Definition X_MAX : R := 10.
Definition X_STEP : R := 0.5.
End COST_VS_SIGMA.

Module COST_VS_K.
Definition X_MIN : R := 0.01.
Definition X_MAX : R := 0.5.
Definition X_STEP : R := 0.01.
End COST_VS_K.

End CHART_CONFIG.

(** ** The chart data of [src/App.tsx]: [plotData], [costVsSigmaData],
    [costVsKData] *)

Module Charts.

(** How a memo ends once its loop is over: with its array, or with the
    [TypeError] of reading a property of [undefined]. *)
Inductive outcome (A : Type) : Type :=
  | Value (a : A)
  | Thrown.
Arguments Value {A} a.
Arguments Thrown {A}.

Record PlotPoint : Type := mkPlotPoint {
  x : R;
  affine : R;
  nonlinear : R;
  ideal : R
}.

Record SigmaPoint : Type := mkSigmaPoint {
  sp_sigma : R;
  sp_affineCost : R;
  sp_nonlinCost : R;
  sp_lowerBound : R
}.

Record KPoint : Type := mkKPoint {
  k : R;
  kVal : R;
  kp_affineCost : R;
  kp_nonlinCost : R;
  kp_lowerBound : R
}.

(** [for (let x = -range; x <= range; x += step) data.push({ ... })]. *)
Fixpoint plot_loop (fuel : nat) (sigma lambda : R) (x range step : R)
    (data : list PlotPoint) : option (list PlotPoint) :=
  match fuel with
  | O => None
  | S fuel' =>
      if Rle_dec x range then
        plot_loop fuel' sigma lambda (x + step) range step
          (data ++ [mkPlotPoint (JS.toFixed_value x 2) (lambda * x)
                      (if Rgt_dec x 0 then sigma else - sigma) x])
      else ret data
  end.

(** [plotData], as a function of [sigma] and of [results.lambda]. *)
Definition plotData (fuel : nat) (sigma lambda : R)
    : option (list PlotPoint) :=
  let data := [] in
  let range := sigma * CHART_CONFIG.STRATEGIES.X_RANGE_MULTIPLIER in
  let step := range / 50 in
  plot_loop fuel sigma lambda (- range) range step data.

Section Tables.

Variable costsData : App.CostsData.

(** [for (let s = X_MIN; s <= X_MAX; s += X_STEP) { ... }] of
    [costVsSigmaData]. *)
Fixpoint costVsSigma_loop (fuel : nat) (kIdx : Z) (s X_MAX X_STEP : R)
    (data : list SigmaPoint) : option (outcome (list SigmaPoint)) :=
  match fuel with
  | O => None
  | S fuel' =>
      if Rle_dec s X_MAX then
        let sIdx := App.getSigmaIndex costsData s in
        let row := nth (Z.to_nat kIdx) (App.data costsData) [] in
        if ((sIdx >=? 0) && (sIdx <? Z.of_nat (length row)))%Z then
          match nth_error row (Z.to_nat sIdx) with
          | Some c =>
              costVsSigma_loop fuel' kIdx (s + X_STEP) X_MAX X_STEP
                (data ++ [mkSigmaPoint s (App.affineCost c)
                            (App.nonlinCost c) (App.lowerBound c)])
          | None => ret Thrown
          end
        else costVsSigma_loop fuel' kIdx (s + X_STEP) X_MAX X_STEP data
      else ret (Value data)
  end.

Definition costVsSigmaData (fuel : nat) (k : R)
    : option (outcome (list SigmaPoint)) :=
  let data := [] in
  let kIdx := App.getKIndex costsData k in
  if ((kIdx >=? 0) && (kIdx <? Z.of_nat (length (App.data costsData))))%Z
  then costVsSigma_loop fuel kIdx CHART_CONFIG.COST_VS_SIGMA.X_MIN
         CHART_CONFIG.COST_VS_SIGMA.X_MAX CHART_CONFIG.COST_VS_SIGMA.X_STEP
         data
  else ret (Value data).

(** [for (let kv = X_MIN; kv <= X_MAX; kv += X_STEP) { ... }] of
    [costVsKData]. *)
Fixpoint costVsK_loop (fuel : nat) (sIdx : Z) (kv X_MAX X_STEP : R)
    (data : list KPoint) : option (outcome (list KPoint)) :=
  match fuel with
  | O => None
  | S fuel' =>
      if Rle_dec kv X_MAX then
        let kIdx := App.getKIndex costsData kv in
        if ((kIdx >=? 0) &&
            (kIdx <? Z.of_nat (length (App.data costsData))))%Z then
          match nth_error (nth (Z.to_nat kIdx) (App.data costsData) [])
                          (Z.to_nat sIdx) with
          | Some c =>
              costVsK_loop fuel' sIdx (kv + X_STEP) X_MAX X_STEP
                (data ++ [mkKPoint (JS.toFixed_value kv 2) kv
                            (App.affineCost c) (App.nonlinCost c)
                            (App.lowerBound c)])
          | None => ret Thrown
          end
        else costVsK_loop fuel' sIdx (kv + X_STEP) X_MAX X_STEP data
      else ret (Value data)
  end.

(** [costVsKData]: [costsData.data[0].length] is read after [sIdx >= 0]
    alone, and throws when the table has no row. *)
Definition costVsKData (fuel : nat) (sigma : R)
    : option (outcome (list KPoint)) :=
  let data := [] in
  let sIdx := App.getSigmaIndex costsData sigma in
  if (sIdx >=? 0)%Z then
    match App.data costsData with
    | [] => ret Thrown
    | row0 :: _ =>
        if (sIdx <? Z.of_nat (length row0))%Z
        then costVsK_loop fuel sIdx CHART_CONFIG.COST_VS_K.X_MIN
               CHART_CONFIG.COST_VS_K.X_MAX CHART_CONFIG.COST_VS_K.X_STEP
               data
        else ret (Value data)
    end
  else ret (Value data).

End Tables.

End Charts.

(** ** Names for the statements about the generated table *)

(** The result that [calculateCosts] returns, as a function of [k] and
    [sigma]. *)
Definition costs_value (fuel : nat) (k sigma : R) : CostResult :=
  match calculateCosts fuel k sigma with
  | Some r => r
  | None => mkCostResult 0 0 0 0
  end.

(** The grid values [0.01, 0.02, ...] of [k] and [0.5, 0.6, ...] of
    [sigma]. *)
Definition k_value (i : nat) : R := INR (S i) / 100.
Definition sigma_value (j : nat) : R := (5 + INR j) / 10.

(** ** The affine cost in binary64 arithmetic

    [solveAffineLambda] and the first field of [calculateCosts]
    (mathUtils.ts 63-83 and 165-167) use only [+ - * /], [Math.abs] and
    [Math.pow(x, 2)], which is taken as [x * x].  The operations are those of
    IEEE 754 binary64; a comparison with NaN is false. *)

Module Binary64.

Local Open Scope float_scope.

Definition Math_pow2 (x : float) : float := x * x.

Definition charEq (k sigma t : float) : float :=
  (t - sigma) * Math_pow2 (1 + t * t) + t / (k * k).

Fixpoint bisection_loop (fuel : nat) (f : float -> float) (low high : float)
    (iter : nat) (mid : float) : option float :=
  match fuel with
  | O => None
  | S fuel' =>
      if (iter <? 100)%nat then
        let mid := (low + high) / 2 in
        if PrimFloat.abs (f mid) <? 1e-6 then ret mid
        else if f low * f mid <? 0
             then bisection_loop fuel' f low mid (S iter) mid
             else bisection_loop fuel' f mid high (S iter) mid
      else ret mid
  end.

Definition solveAffineLambda (fuel : nat) (k sigma : float) : option float :=
  let f := charEq k sigma in
  let low := 0 in
  let high := sigma in
  let iter := 0%nat in
  let mid := 0 in
  if 0 <? f low * f high then ret 0
  else
    mid <- bisection_loop fuel f low high iter mid ;;
    ret (mid / sigma).

(** The field [affineCost] of the result of [calculateCosts]. *)
Definition affineCost (fuel : nat) (k sigma : float) : option float :=
  lambda <- solveAffineLambda fuel k sigma ;;
  ret (k * k * sigma * sigma * Math_pow2 (1 - lambda) +
       sigma * sigma * lambda * lambda /
       (1 + sigma * sigma * lambda * lambda)).

End Binary64.

(** [x] is within 0.49 steps of the grid value of index [i] of the axis [m],
    with sizes at which the quotient [(x - min) / step] of the index
    functions neither overflows nor loses its integer part. *)
Definition near_grid_value (m : App.AxisMetadata) (x : R) (i : Z) : Prop :=
  0 < App.step m /\
  Rabs (x - (App.min m + IZR i * App.step m)) <= 0.49 * App.step m /\
  Rabs (IZR i) <= 1e9 /\ Rabs x <= 1e300 /\ Rabs (App.min m) <= 1e300.

(** * Quadrature *)

Lemma mod2_even (i : nat) : (i mod 2 =? 0)%nat = Nat.even i.
Proof.
  pose proof (Nat.div_mod_eq i 2) as E.
  pose proof (Nat.mod_upper_bound i 2 ltac:(lia)) as B.
  rewrite E at 2. rewrite Nat.add_comm, Nat.even_add_mul_2.
  destruct (i mod 2)%nat as [|[|r]]; try reflexivity; lia.
Qed.

Lemma code_weight (i : nat) :
  (if (i mod 2 =? 0)%nat then 2 else 4) = Spec.simpson_weight i.
Proof.
  unfold Spec.simpson_weight.
  rewrite mod2_even, <- Nat.negb_even. destruct (Nat.even i); reflexivity.
Qed.

Lemma interior_sum_cons f a h i count :
  Spec.interior_sum f a h i (S count) =
  Spec.simpson_weight i * f (a + INR i * h) +
  Spec.interior_sum f a h (S i) count.
Proof. reflexivity. Qed.

Lemma interior_sum_snoc f a h i count :
  Spec.interior_sum f a h i (S count) =
  Spec.interior_sum f a h i count +
  Spec.simpson_weight (i + count) * f (a + INR (i + count) * h).
Proof.
  revert i. induction count as [|c IH]; intros i.
  - unfold Spec.interior_sum. cbn [seq map fold_right].
    rewrite Nat.add_0_r. ring.
  - rewrite interior_sum_cons, IH, interior_sum_cons.
    replace (S i + c)%nat with (i + S c)%nat by lia. ring.
Qed.

(** The loop of [integrate] adds the interior sum to its accumulator, when
    the integrand returns at every node. *)
Lemma integrate_loop_total func g min h count : forall i sum,
  (forall x, func x = Some (g x)) ->
  integrate_loop func min h i count sum =
  Some (sum + Spec.interior_sum g min h i count).
Proof.
  induction count as [|c IH]; intros i sum Hg.
  - cbn. unfold ret, Spec.interior_sum. cbn. f_equal. ring.
  - cbn [integrate_loop]. rewrite Hg. cbn [bind].
    rewrite IH by assumption. rewrite interior_sum_cons, code_weight.
    f_equal. ring.
Qed.

Lemma integrate_total func g min max n :
  (forall x, func x = Some (g x)) ->
  integrate func min max n = Some (Spec.simpson g min max n).
Proof.
  intros Hg. unfold integrate. rewrite !Hg. cbn [bind].
  rewrite (integrate_loop_total func g) by assumption. cbn [bind].
  unfold ret, Spec.simpson. f_equal. unfold Rdiv. ring.
Qed.

(** An integrand that fails to return at a node makes [integrate] fail. *)
Lemma integrate_loop_none func min h count : forall i sum j,
  (i <= j < i + count)%nat ->
  func (min + INR j * h) = None ->
  integrate_loop func min h i count sum = None.
Proof.
  induction count as [|c IH]; intros i sum j Hj Hn; [lia|].
  cbn [integrate_loop].
  destruct (Nat.eq_dec i j) as [->|Hne].
  - rewrite Hn. reflexivity.
  - destruct (func (min + INR i * h)); [|reflexivity]. cbn [bind].
    apply (IH _ _ j); [lia|assumption].
Qed.

(** ** Exactness on cubics *)

Section Cubic.

Variables c0 c1 c2 c3 : R.

Local Abbreviation p := (Spec.cubic c0 c1 c2 c3).
Local Abbreviation P := (Spec.cubic_primitive c0 c1 c2 c3).

(** [P] is an antiderivative of [p]. *)
Lemma cubic_primitive_derivative (x : R) : derivable_pt_lim P x (p x).
Proof.
  unfold Spec.cubic_primitive, Spec.cubic.
  assert (D : forall n, derivable_pt_lim (fun y => y ^ n) x (INR n * x ^ pred n))
    by (intros n; apply derivable_pt_lim_pow).
  pose proof (derivable_pt_lim_scal _ c0 x _ (derivable_pt_lim_id x)) as D1.
  pose proof (derivable_pt_lim_scal _ (c1 / 2) x _ (D 2%nat)) as D2.
  pose proof (derivable_pt_lim_scal _ (c2 / 3) x _ (D 3%nat)) as D3.
  pose proof (derivable_pt_lim_scal _ (c3 / 4) x _ (D 4%nat)) as D4.
  pose proof (derivable_pt_lim_plus _ _ x _ _
               (derivable_pt_lim_plus _ _ x _ _
                 (derivable_pt_lim_plus _ _ x _ _ D1 D2) D3) D4) as D5.
  unfold plus_fct, mult_real_fct, id in D5.
  replace (c0 + c1 * x + c2 * x ^ 2 + c3 * x ^ 3)
    with (c0 * 1 + c1 / 2 * (INR 2 * x ^ pred 2) +
          c2 / 3 * (INR 3 * x ^ pred 3) + c3 / 4 * (INR 4 * x ^ pred 4))
    by (simpl; field).
  intros eps Heps. destruct (D5 eps Heps) as [delta Hd].
  exists delta. intros t Ht Hlt. specialize (Hd t Ht Hlt).
  match goal with
  | H : Rabs ?u < eps |- Rabs ?v < eps => replace v with u; [exact H|]
  end.
  field. exact Ht.
Qed.

(** One Simpson panel of width [2 h] is exact. *)
Lemma simpson_panel (a h : R) :
  (p a + 4 * p (a + h) + p (a + 2 * h)) * (h / 3) = P (a + 2 * h) - P a.
Proof. unfold Spec.cubic, Spec.cubic_primitive. field. Qed.

(** The composite rule over [2 (m + 1)] intervals of width [h]. *)
Lemma simpson_panels (a h : R) (m : nat) :
  (p a + p (a + INR (2 * S m) * h) +
   Spec.interior_sum p a h 1 (2 * S m - 1)) * (h / 3) =
  P (a + INR (2 * S m) * h) - P a.
Proof.
  induction m as [|m IH].
  - change (2 * 1 - 1)%nat with 1%nat. change (2 * 1)%nat with 2%nat.
    unfold Spec.interior_sum, Spec.simpson_weight. cbn [seq map fold_right Nat.odd Nat.even].
    rewrite <- simpson_panel. change (INR 2) with 2. change (INR 1) with 1.
    replace (a + 1 * h) with (a + h) by ring.
    change (Nat.odd 1) with true. cbv iota. lra.
  - replace (2 * S (S m) - 1)%nat with (S (S (2 * S m - 1))) by lia.
    rewrite 2 interior_sum_snoc.
    replace (1 + (2 * S m - 1))%nat with (2 * S m)%nat by lia.
    replace (1 + S (2 * S m - 1))%nat with (S (2 * S m)) by lia.
    replace (2 * S (S m))%nat with (S (S (2 * S m))) by lia.
    unfold Spec.simpson_weight. rewrite Nat.odd_succ, Nat.even_even, Nat.odd_even.
    rewrite !S_INR.
    set (n := INR (2 * S m)) in *.
    pose proof (simpson_panel (a + n * h) h) as Hp.
    replace (a + (n + 1 + 1) * h) with (a + n * h + 2 * h) by ring.
    replace (a + (n + 1) * h) with (a + n * h + h) by ring.
    lra.
Qed.

Lemma simpson_exact_cubic (a b : R) (n : nat) :
  Nat.even n = true -> (2 <= n)%nat ->
  Spec.simpson p a b n = P b - P a.
Proof.
  intros He Hn.
  destruct (Nat.even_spec n) as [Hex _]. destruct (Hex He) as [m ->].
  destruct m as [|m]; [lia|].
  unfold Spec.simpson.
  assert (Hne : INR (2 * S m) <> 0) by (apply not_0_INR; lia).
  set (h := (b - a) / INR (2 * S m)).
  assert (Hb : b = a + INR (2 * S m) * h) by (unfold h; field; exact Hne).
  rewrite Hb at 1 2. apply simpson_panels.
Qed.

End Cubic.



Lemma interior_sum_ext f g a h count : forall i,
  (forall x, f x = g x) ->
  Spec.interior_sum f a h i count = Spec.interior_sum g a h i count.
Proof.
  induction count as [|c IH]; intros i E; [reflexivity|].
  rewrite !interior_sum_cons, E, (IH (S i) E). reflexivity.
Qed.

Lemma simpson_ext f g a b n :
  (forall x, f x = g x) -> Spec.simpson f a b n = Spec.simpson g a b n.
Proof.
  intros E. unfold Spec.simpson.
  rewrite !E, (interior_sum_ext f g) by assumption. reflexivity.
Qed.

Lemma simpson_weight_pos i : 0 < Spec.simpson_weight i.
Proof. unfold Spec.simpson_weight. destruct (Nat.odd i); lra. Qed.

Lemma interior_sum_nonneg f a h count : forall i,
  (forall x, 0 <= f x) -> 0 <= Spec.interior_sum f a h i count.
Proof.
  induction count as [|c IH]; intros i Hf.
  - unfold Spec.interior_sum. cbn. lra.
  - rewrite interior_sum_cons.
    pose proof (simpson_weight_pos i). pose proof (Hf (a + INR i * h)).
    pose proof (IH (S i) Hf). nra.
Qed.

(** The rule applied to a non-negative function over [a <= b] is
    non-negative. *)
Lemma simpson_nonneg f a b n :
  (forall x, 0 <= f x) -> a <= b -> (0 < n)%nat ->
  0 <= Spec.simpson f a b n.
Proof.
  intros Hf Hab Hn. unfold Spec.simpson.
  pose proof (interior_sum_nonneg f a ((b - a) / INR n) (n - 1) 1 Hf).
  pose proof (Hf a). pose proof (Hf b).
  assert (0 <= (b - a) / INR n).
  { unfold Rdiv. apply Rmult_le_pos; [lra|].
    left. apply Rinv_0_lt_compat. apply lt_0_INR. exact Hn. }
  apply Rmult_le_pos; lra.
Qed.

Lemma interior_sum_le_weights f a h count M : forall i,
  (forall x, f x <= M) ->
  Spec.interior_sum f a h i count <=
  M * Spec.interior_sum (fun _ => 1) a h i count.
Proof.
  induction count as [|c IH]; intros i Hf.
  - unfold Spec.interior_sum. cbn. lra.
  - rewrite !interior_sum_cons.
    pose proof (simpson_weight_pos i). pose proof (Hf (a + INR i * h)).
    pose proof (IH (S i) Hf). nra.
Qed.

(** * The auxiliary function *)

Lemma cosh_pos x : 0 < cosh x.
Proof.
  unfold cosh. pose proof (exp_pos x). pose proof (exp_pos (- x)). lra.
Qed.

Lemma cosh_opp x : cosh (- x) = cosh x.
Proof. unfold cosh. rewrite Ropp_involutive. lra. Qed.

Lemma calculateH_spec (a : R) : calculateH a = Some (Spec.h a).
Proof.
  unfold calculateH, Spec.h. destruct (Req_dec_T a 0) as [_|_]; [reflexivity|].
  cbv zeta.
  rewrite (integrate_total _ (fun y => exp (- 0.5 * y * y) / cosh (a * y)))
    by reflexivity.
  cbn [bind]. unfold ret. f_equal.
  rewrite (simpson_ext _ (fun y => exp (- y ^ 2 / 2) / cosh (a * y))).
  - replace (- 0.5 * a * a) with (- a ^ 2 / 2) by lra. ring.
  - intros y. replace (- 0.5 * y * y) with (- y ^ 2 / 2) by lra. reflexivity.
Qed.

Lemma h_even (a : R) : Spec.h (- a) = Spec.h a.
Proof.
  unfold Spec.h.
  destruct (Req_dec_T a 0) as [E|N], (Req_dec_T (- a) 0) as [E'|N'];
    try reflexivity; try lra.
  replace ((- a) ^ 2) with (a ^ 2) by ring. f_equal.
  apply simpson_ext. intros y. f_equal.
  replace (- a * y) with (- (a * y)) by ring. apply cosh_opp.
Qed.

Lemma h_nonneg (a : R) : 0 <= Spec.h a.
Proof.
  unfold Spec.h. destruct (Req_dec_T a 0) as [_|_]; [lra|].
  apply Rmult_le_pos.
  - apply Rmult_le_pos; [apply pow2_ge_0 | left; apply exp_pos].
  - apply simpson_nonneg; [|lra|lia].
    intros y. left. apply Rdiv_lt_0_compat; [apply exp_pos | apply cosh_pos].
Qed.

(** C9. The auxiliary function is even, [calculateH a = calculateH (- a)]
    for every real [a], and [calculateH 0] is the hard-coded [0]. *)
Theorem calculateH_even :
  (forall a : R, calculateH a = calculateH (- a)) /\ calculateH 0 = Some 0.
Proof.
  split.
  - intros a. rewrite !calculateH_spec, h_even. reflexivity.
  - unfold calculateH. destruct (Req_dec_T 0 0) as [_|N]; [reflexivity|].
    exfalso. apply N. reflexivity.
Qed.

(** * Bisection *)

(** With more fuel than the [100 - iter] iterations that are left, the loop
    of [solveAffineLambda] returns, and what it returns is the bisection of
    the specification. *)
Lemma bisection_loop_spec f : forall fuel low high iter mid,
  (100 - iter < fuel)%nat ->
  bisection_loop fuel f low high iter mid =
  Some (Spec.bisection f 1e-6 (100 - iter) low high mid).
Proof.
  induction fuel as [|fuel IH]; intros low high iter mid Hf; [lia|].
  cbn [bisection_loop].
  destruct (Nat.ltb_spec iter 100) as [Hlt|Hge].
  - replace (100 - iter)%nat with (S (100 - S iter)) by lia.
    cbn [Spec.bisection]. cbv zeta.
    destruct (Rlt_dec (Rabs (f ((low + high) / 2))) 1e-6); [reflexivity|].
    destruct (Rlt_dec (f low * f ((low + high) / 2)) 0); apply IH; lia.
  - replace (100 - iter)%nat with 0%nat by lia. reflexivity.
Qed.

(** Without enough fuel for the iterations that the loop runs, it does not
    return: here for a function that is never within tolerance of zero. *)
Lemma bisection_loop_starved f : forall fuel low high iter mid,
  (forall t, ~ Rabs (f t) < 1e-6) ->
  (fuel <= 100 - iter)%nat ->
  bisection_loop fuel f low high iter mid = None.
Proof.
  induction fuel as [|fuel IH]; intros low high iter mid Hf Hfu; [reflexivity|].
  cbn [bisection_loop].
  destruct (Nat.ltb_spec iter 100) as [Hlt|Hge]; [|lia].
  destruct (Rlt_dec (Rabs (f ((low + high) / 2))) 1e-6) as [H|_];
    [exfalso; exact (Hf _ H)|].
  destruct (Rlt_dec (f low * f ((low + high) / 2)) 0); apply IH;
    solve [assumption | lia].
Qed.

Lemma bisection_ext f g tol n : forall low high last,
  (forall t, f t = g t) ->
  Spec.bisection f tol n low high last = Spec.bisection g tol n low high last.
Proof.
  induction n as [|n IH]; intros low high last E; [reflexivity|].
  cbn [Spec.bisection]. rewrite !E.
  destruct (Rlt_dec (Rabs (g ((low + high) / 2))) tol); [reflexivity|].
  destruct (Rlt_dec (g low * g ((low + high) / 2)) 0); apply IH; assumption.
Qed.

(** The answer of the bisection stays in the bracket it started from. *)
Lemma bisection_in_bracket f tol n : forall low high last,
  low <= high -> low <= last <= high ->
  low <= Spec.bisection f tol n low high last <= high.
Proof.
  induction n as [|n IH]; intros low high last Hlh Hlast; [exact Hlast|].
  cbn [Spec.bisection].
  destruct (Rlt_dec (Rabs (f ((low + high) / 2))) tol); [lra|].
  destruct (Rlt_dec (f low * f ((low + high) / 2)) 0).
  - assert (low <= Spec.bisection f tol n low ((low + high) / 2)
                     ((low + high) / 2) <= (low + high) / 2)
      by (apply IH; lra). lra.
  - assert ((low + high) / 2 <= Spec.bisection f tol n ((low + high) / 2) high
                     ((low + high) / 2) <= high)
      by (apply IH; lra). lra.
Qed.

Lemma charEq_characteristic k sigma t :
  charEq k sigma t = Spec.characteristic k sigma t.
Proof.
  unfold charEq, Spec.characteristic.
  replace (t * t) with (t ^ 2) by ring. replace (k * k) with (k ^ 2) by ring.
  reflexivity.
Qed.

(** The characteristic function never has the same strict sign at the two
    ends of the bracket [0, sigma]: there it is [- sigma] and
    [sigma / k²]. *)
Lemma charEq_ends k sigma :
  k <> 0 -> charEq k sigma 0 * charEq k sigma sigma <= 0.
Proof.
  intros Hk. unfold charEq.
  replace ((0 - sigma) * (1 + 0 * 0) ^ 2 + 0 / (k * k)) with (- sigma)
    by (unfold Rdiv; ring).
  replace ((sigma - sigma) * (1 + sigma * sigma) ^ 2 + sigma / (k * k))
    with (sigma * / (k * k)) by (unfold Rdiv; ring).
  assert (0 < / (k * k)) by (apply Rinv_0_lt_compat; nra).
  nra.
Qed.

(** What [solveAffineLambda_body] returns when it has fuel for the loop. *)
Lemma solveAffineLambda_body_spec fuel f sigma :
  (100 < fuel)%nat ->
  solveAffineLambda_body fuel f sigma =
  Some (if Rgt_dec (f 0 * f sigma) 0 then 0
        else Spec.bisection f 1e-6 100 0 sigma 0 / sigma).
Proof.
  intros Hf. unfold solveAffineLambda_body. cbv zeta.
  destruct (Rgt_dec (f 0 * f sigma) 0); [reflexivity|].
  rewrite bisection_loop_spec by lia. reflexivity.
Qed.

Lemma solveAffineLambda_spec fuel k sigma :
  k <> 0 -> (100 < fuel)%nat ->
  solveAffineLambda fuel k sigma =
  Some (Spec.bisection (Spec.characteristic k sigma) 1e-6 100 0 sigma 0 / sigma).
Proof.
  intros Hk Hf. unfold solveAffineLambda.
  rewrite solveAffineLambda_body_spec by assumption.
  pose proof (charEq_ends k sigma Hk).
  destruct (Rgt_dec (charEq k sigma 0 * charEq k sigma sigma) 0); [lra|].
  rewrite (bisection_ext _ (Spec.characteristic k sigma))
    by apply charEq_characteristic.
  reflexivity.
Qed.

(** C6. Whatever function [f] the body of [solveAffineLambda] is run on, and
    whatever the end [sigma] of its bracket: when [f 0 * f sigma > 0] it
    returns the sentinel [0].  (The characteristic function itself never
    meets that premise: see [charEq_ends].) *)
Theorem solveAffineLambda_no_bracket (fuel : nat) (f : R -> R) (sigma : R) :
  f 0 * f sigma > 0 -> solveAffineLambda_body fuel f sigma = Some 0.
Proof.
  intros H. unfold solveAffineLambda_body. cbv zeta.
  destruct (Rgt_dec (f 0 * f sigma) 0) as [_|N]; [reflexivity|].
  exfalso. exact (N H).
Qed.

Lemma solveAffineLambda_no_bracket_witness :
  (0 * 0 + 1) * (2 * 2 + 1) > 0 /\
  solveAffineLambda_body 101 (fun t => t * t + 1) 2 = Some 0.
Proof.
  split; [lra|].
  apply (solveAffineLambda_no_bracket 101 (fun t => t * t + 1) 2). lra.
Defined.

(** * Golden-section search *)

Lemma GR_golden : GR = Spec.golden.
Proof. reflexivity. Qed.

Lemma sqrt5_bounds : 2236 / 1000 <= sqrt 5 <= 22362 / 10000.
Proof.
  split.
  - rewrite <- (sqrt_square (2236 / 1000)) by lra.
    apply sqrt_le_1; lra.
  - rewrite <- (sqrt_square (22362 / 10000)) by lra.
    apply sqrt_le_1; lra.
Qed.

Lemma GR_bounds : 618 / 1000 <= GR <= 6181 / 10000.
Proof. unfold GR. pose proof sqrt5_bounds. lra. Qed.

Lemma GR_pos : 0 < GR.
Proof. pose proof GR_bounds. lra. Qed.

Lemma GR_pow_le n : GR ^ n <= (6181 / 10000) ^ n.
Proof. pose proof GR_bounds. apply pow_incr. lra. Qed.

Lemma GR_pow_ge n : (618 / 1000) ^ n <= GR ^ n.
Proof. pose proof GR_bounds. apply pow_incr. lra. Qed.

(** Each iteration multiplies the width of the bracket by [GR], whichever
    side is kept. *)
Lemma width_left a b : Rabs (a + GR * (b - a) - a) = GR * Rabs (b - a).
Proof.
  replace (a + GR * (b - a) - a) with (GR * (b - a)) by ring.
  rewrite Rabs_mult, (Rabs_pos_eq GR); [reflexivity|].
  left; apply GR_pos.
Qed.

Lemma width_right a b : Rabs (b - (b - GR * (b - a))) = GR * Rabs (b - a).
Proof.
  replace (b - (b - GR * (b - a))) with (GR * (b - a)) by ring.
  rewrite Rabs_mult, (Rabs_pos_eq GR); [reflexivity|].
  left; apply GR_pos.
Qed.

Lemma GR_pow_unit n : 0 < GR ^ n <= 1.
Proof.
  pose proof GR_bounds. split.
  - apply pow_lt; lra.
  - rewrite <- (pow1 n). apply pow_incr. lra.
Qed.


(** When the width passes strictly below [tol] at the contraction [n + 1],
    the loop stops where the search of the specification stops, and the
    midpoint of its bracket is the point of the specification. *)
Lemma goldenSection_loop_refines f g tol : forall n fuel a b,
  (forall x, f x = Some (g x)) ->
  Rabs (b - a) * GR ^ S n < tol ->
  tol < Rabs (b - a) * GR ^ n ->
  (S n < fuel)%nat ->
  exists ab,
    goldenSection_loop fuel f tol a b (b - GR * (b - a)) (a + GR * (b - a))
      = Some ab /\
    Spec.golden_section g tol a b ((snd ab + fst ab) / 2).
Proof.
  assert (Stop : forall fuel a b, Rabs (b - a) < tol -> (0 < fuel)%nat ->
    exists ab,
      goldenSection_loop fuel f tol a b (b - GR * (b - a))
        (a + GR * (b - a)) = Some ab /\
      Spec.golden_section g tol a b ((snd ab + fst ab) / 2)).
  { intros fuel a b Hw Hf. destruct fuel as [|fuel]; [lia|].
    cbn [goldenSection_loop].
    destruct (Rgt_dec (Rabs (b - a)) tol) as [Hgt|_]; [lra|].
    exists (a, b). split; [reflexivity|]. cbn [fst snd].
    replace (b + a) with (a + b) by ring. constructor. exact Hw. }
  assert (Wide : forall n a b, tol < Rabs (b - a) * GR ^ n ->
                                Rabs (b - a) > tol).
  { intros n a b H. pose proof (GR_pow_unit n). pose proof (Rabs_pos (b - a)).
    nra. }
  induction n as [|n IH]; intros fuel a b Hg Hlo Hhi Hf;
    (destruct fuel as [|fuel]; [lia|]); cbn [goldenSection_loop];
    (destruct (Rgt_dec (Rabs (b - a)) tol) as [Hgt|Hle];
       [|exfalso; apply Hle; exact (Wide _ _ _ Hhi)]);
    rewrite !Hg; cbn [bind];
    destruct (Rlt_dec (g (b - GR * (b - a))) (g (a + GR * (b - a))))
      as [Hlt|Hnlt].
  - destruct (Stop fuel a (a + GR * (b - a))) as (ab & E & S);
      [rewrite width_left; cbn in Hlo; lra | lia |].
    exists ab. split; [exact E|]. apply Spec.gs_left; [lra | exact Hlt | exact S].
  - destruct (Stop fuel (b - GR * (b - a)) b) as (ab & E & S);
      [rewrite width_right; cbn in Hlo; lra | lia |].
    exists ab. split; [exact E|]. apply Spec.gs_right; [lra | exact Hnlt | exact S].
  - destruct (IH fuel a (a + GR * (b - a)) Hg) as (ab & E & S);
      [ rewrite width_left; cbn in Hlo |- *; lra
      | rewrite width_left; cbn in Hhi; lra | lia |].
    exists ab. split; [exact E|]. apply Spec.gs_left; [lra | exact Hlt | exact S].
  - destruct (IH fuel (b - GR * (b - a)) b Hg) as (ab & E & S);
      [ rewrite width_right; cbn in Hlo |- *; lra
      | rewrite width_right; cbn in Hhi; lra | lia |].
    exists ab. split; [exact E|]. apply Spec.gs_right; [lra | exact Hnlt | exact S].
Qed.

(** While the width exceeds [tol] the loop goes on: if even [n] contractions
    leave the width above [tol], [n + 1] units of fuel are not enough. *)
Lemma goldenSection_loop_starved f tol : forall n fuel a b,
  tol < Rabs (b - a) * GR ^ n ->
  (fuel <= S n)%nat ->
  goldenSection_loop fuel f tol a b (b - GR * (b - a)) (a + GR * (b - a))
    = None.
Proof.
  pose proof GR_pow_unit as P.
  induction n as [|n IH]; intros fuel a b Hw Hf;
    (destruct fuel as [|fuel]; [reflexivity|]); cbn [goldenSection_loop].
  - destruct (Rgt_dec (Rabs (b - a)) tol) as [Hgt|Hle]; [|cbn in Hw; lra].
    replace fuel with 0%nat by lia.
    destruct (f (b - GR * (b - a))); [|reflexivity].
    destruct (f (a + GR * (b - a))); reflexivity.
  - destruct (Rgt_dec (Rabs (b - a)) tol) as [Hgt|Hle].
    + destruct (f (b - GR * (b - a))) as [fc|]; [|reflexivity].
      destruct (f (a + GR * (b - a))) as [fd|]; [|reflexivity].
      cbn [bind]. destruct (Rlt_dec fc fd).
      * apply IH; [rewrite width_left; cbn in Hw; lra | lia].
      * apply IH; [rewrite width_right; cbn in Hw; lra | lia].
    + exfalso. apply Hle. pose proof (P (S n)). pose proof (Rabs_pos (b - a)).
      nra.
Qed.

(** The search of [calculateVk] needs 27 iterations, whatever the
    objective. *)
Lemma width_after_27 : Rabs (20 - - 20) * GR ^ 27 < 1e-4.
Proof.
  replace (20 - - 20) with 40 by ring. rewrite Rabs_pos_eq by lra.
  pose proof (GR_pow_le 27). lra.
Qed.

Lemma width_after_26 : 1e-4 < Rabs (20 - - 20) * GR ^ 26.
Proof.
  replace (20 - - 20) with 40 by ring. rewrite Rabs_pos_eq by lra.
  pose proof (GR_pow_ge 26). lra.
Qed.

(** The point returned is determined by the bracket. *)
Lemma golden_section_functional f tol a b x :
  Spec.golden_section f tol a b x ->
  forall y, Spec.golden_section f tol a b y -> x = y.
Proof.
  induction 1 as [a b Hs | a b x Hw Hlt _ IH | a b x Hw Hnlt _ IH];
    intros y Hy; inversion Hy; subst; try lra; try contradiction; auto.
Qed.

(** * The lower bound *)

Lemma costFunc_spec xi k a : costFunc xi k a = Some (Spec.stage_cost xi k a).
Proof.
  unfold costFunc, Spec.stage_cost. rewrite calculateH_spec. cbn [bind].
  unfold ret. f_equal. ring.
Qed.

Lemma stage_cost_nonneg xi k a : 0 <= Spec.stage_cost xi k a.
Proof.
  unfold Spec.stage_cost. pose proof (h_nonneg a).
  pose proof (pow2_ge_0 k). pose proof (pow2_ge_0 (a - xi)). nra.
Qed.

(** With fuel for its 27 iterations, [calculateVk] returns the value of the
    objective at the point of the golden-section search. *)
Lemma calculateVk_spec fuel xi k :
  (27 < fuel)%nat ->
  exists v, calculateVk fuel xi k = Some v /\ Spec.is_Vk xi k v.
Proof.
  intros Hf. unfold calculateVk, goldenSectionSearch. cbv zeta.
  destruct (goldenSection_loop_refines (costFunc xi k) (Spec.stage_cost xi k)
              1e-4 26 fuel (- 20) 20 (costFunc_spec xi k) width_after_27
              width_after_26 Hf)
    as (ab & E & S).
  rewrite E. unfold ret. cbn [bind]. rewrite costFunc_spec.
  eexists. split; [reflexivity|].
  exists ((snd ab + fst ab) / 2). split; [exact S | reflexivity].
Qed.

Lemma calculateVk_starved fuel xi k :
  (fuel <= 27)%nat -> calculateVk fuel xi k = None.
Proof.
  intros Hf. unfold calculateVk, goldenSectionSearch. cbv zeta.
  rewrite (goldenSection_loop_starved _ _ 26) by (exact width_after_26 || lia).
  reflexivity.
Qed.

Lemma is_Vk_functional xi k v w :
  Spec.is_Vk xi k v -> Spec.is_Vk xi k w -> v = w.
Proof.
  intros (a & Ga & ->) (b & Gb & ->).
  rewrite (golden_section_functional _ _ _ _ _ Ga _ Gb). reflexivity.
Qed.

Lemma Vk_value_spec fuel k xi :
  (27 < fuel)%nat ->
  calculateVk fuel xi k = Some (Vk_value fuel k xi) /\
  Spec.is_Vk xi k (Vk_value fuel k xi).
Proof.
  intros Hf. unfold Vk_value.
  destruct (calculateVk_spec fuel xi k Hf) as (v & -> & Hv). auto.
Qed.

Lemma is_Vk_nonneg xi k v : Spec.is_Vk xi k v -> 0 <= v.
Proof. intros (a & _ & ->). apply stage_cost_nonneg. Qed.

Lemma phi_spec z : phi z = Spec.phi z.
Proof.
  unfold phi, Spec.phi. replace (- 0.5 * z * z) with (- z ^ 2 / 2) by lra.
  reflexivity.
Qed.

Lemma phi_pos z : 0 < Spec.phi z.
Proof.
  unfold Spec.phi. apply Rmult_lt_0_compat; [|apply exp_pos].
  apply Rdiv_lt_0_compat; [lra|]. apply sqrt_lt_R0.
  pose proof PI_RGT_0. lra.
Qed.

Lemma calculateLowerBound_spec fuel k sigma :
  (27 < fuel)%nat ->
  calculateLowerBound fuel k sigma =
  Some (2 * Spec.simpson
              (fun z => Spec.phi z * Vk_value fuel k (sigma * z)) 0 5 50).
Proof.
  intros Hf. unfold calculateLowerBound. cbv zeta.
  rewrite (integrate_total _
             (fun z => Spec.phi z * Vk_value fuel k (sigma * z))).
  - reflexivity.
  - intros z. destruct (Vk_value_spec fuel k (sigma * z) Hf) as [-> _].
    cbn [bind]. rewrite phi_spec. reflexivity.
Qed.

Lemma calculateLowerBound_starved fuel k sigma :
  (fuel <= 27)%nat -> calculateLowerBound fuel k sigma = None.
Proof.
  intros Hf. unfold calculateLowerBound, integrate. cbv zeta.
  rewrite calculateVk_starved by assumption. reflexivity.
Qed.

(** * The costs *)

(** What [calculateCosts] returns when it has fuel for its loops. *)
Lemma calculateCosts_spec fuel k sigma :
  k <> 0 -> (100 < fuel)%nat ->
  calculateCosts fuel k sigma =
  Some
    (let lam :=
       Spec.bisection (Spec.characteristic k sigma) 1e-6 100 0 sigma 0
       / sigma in
     mkCostResult lam
       (k * k * sigma * sigma * (1 - lam) ^ 2 +
        sigma * sigma * lam * lam / (1 + sigma * sigma * lam * lam))
       (2 * k * k * sigma * sigma * (1 - sqrt (2 / PI)) + Spec.h sigma)
       (2 * Spec.simpson
              (fun z => Spec.phi z * Vk_value fuel k (sigma * z)) 0 5 50)).
Proof.
  intros Hk Hf. unfold calculateCosts.
  rewrite solveAffineLambda_spec by assumption. cbn [bind].
  rewrite calculateH_spec. cbn [bind].
  rewrite calculateLowerBound_spec by lia. reflexivity.
Qed.

(** C2. For [k > 0] and [sigma > 0] the engine returns, and its [affineCost]
    is [k² sigma² (1 - lambda)² + sigma² lambda² / (1 + sigma² lambda²)]
    where [lambda = t / sigma] and [t] is the answer of the bisection of the
    characteristic equation on the bracket [0, sigma] with tolerance [1e-6]
    and at most 100 iterations. *)
Theorem affineCost_formula (fuel : nat) (k sigma : R) :
  0 < k -> 0 < sigma -> (100 < fuel)%nat ->
  exists r,
    calculateCosts fuel k sigma = Some r /\
    let t :=
      Spec.bisection (Spec.characteristic k sigma) 1e-6 100 0 sigma 0 in
    let lam := t / sigma in
    lambda r = lam /\
    affineCost r =
      k ^ 2 * sigma ^ 2 * (1 - lam) ^ 2 +
      sigma ^ 2 * lam ^ 2 / (1 + sigma ^ 2 * lam ^ 2).
Proof.
  intros Hk _ Hf. eexists.
  split; [apply calculateCosts_spec; [lra | exact Hf]|].
  cbv zeta. cbn [lambda affineCost]. split; [reflexivity|].
  set (lam := _ / sigma).
  replace (sigma * sigma * lam * lam) with (sigma ^ 2 * lam ^ 2) by ring.
  ring.
Qed.

Lemma affineCost_formula_witness :
  0 < 0.2 /\ 0 < 5 /\ (100 < 101)%nat /\
  exists r,
    calculateCosts 101 0.2 5 = Some r /\
    lambda r =
      Spec.bisection (Spec.characteristic 0.2 5) 1e-6 100 0 5 0 / 5.
Proof.
  split; [lra|]. split; [lra|]. split; [lia|].
  destruct (affineCost_formula 101 0.2 5) as (r & E & Hl & _);
    [lra | lra | lia |].
  exists r. split; [exact E | exact Hl].
Defined.

(** C4. For [k > 0] and [sigma > 0] the engine returns, and its [nonlinCost]
    is [2 k² sigma² (1 - sqrt (2 / PI)) + h sigma], with [h] the auxiliary
    function of the specification: for [a <> 0],
    [h a = a² exp (- a² / 2)] times the Simpson quadrature with [n = 200]
    over [-10, 10] of [exp (- y² / 2) / cosh (a y)]. *)
Theorem nonlinCost_formula (fuel : nat) (k sigma : R) :
  0 < k -> 0 < sigma -> (100 < fuel)%nat ->
  exists r,
    calculateCosts fuel k sigma = Some r /\
    nonlinCost r =
      2 * k ^ 2 * sigma ^ 2 * (1 - sqrt (2 / PI)) +
      sigma ^ 2 * exp (- sigma ^ 2 / 2) *
      Spec.simpson (fun y => exp (- y ^ 2 / 2) / cosh (sigma * y))
        (- 10) 10 200.
Proof.
  intros Hk Hs Hf. eexists.
  split; [apply calculateCosts_spec; [lra | exact Hf]|].
  cbv zeta. cbn [nonlinCost]. unfold Spec.h.
  destruct (Req_dec_T sigma 0) as [E|_]; [lra|]. ring.
Qed.

Lemma nonlinCost_formula_witness :
  0 < 0.2 /\ 0 < 5 /\ (100 < 101)%nat /\
  exists r,
    calculateCosts 101 0.2 5 = Some r /\
    nonlinCost r =
      2 * 0.2 ^ 2 * 5 ^ 2 * (1 - sqrt (2 / PI)) +
      5 ^ 2 * exp (- 5 ^ 2 / 2) *
      Spec.simpson (fun y => exp (- y ^ 2 / 2) / cosh (5 * y)) (- 10) 10 200.
Proof.
  split; [lra|]. split; [lra|]. split; [lia|].
  apply (nonlinCost_formula 101 0.2 5); [lra | lra | lia].
Defined.

(** C3. For [k > 0] and [sigma > 0] the engine returns, and its [lowerBound]
    is twice the Simpson quadrature with [n = 50] over [0, 5] of
    [phi z * Vk (sigma z)], where [Vk xi] is the value of
    [a => k² (a - xi)² + h a] at the point returned by the golden-section
    search over [-20, 20] with tolerance [1e-4]. *)
Theorem lowerBound_formula (fuel : nat) (k sigma : R) :
  0 < k -> 0 < sigma -> (100 < fuel)%nat ->
  exists r Vk,
    calculateCosts fuel k sigma = Some r /\
    (forall xi, Spec.is_Vk xi k (Vk xi)) /\
    lowerBound r =
      2 * Spec.simpson (fun z => Spec.phi z * Vk (sigma * z)) 0 5 50.
Proof.
  intros Hk _ Hf. eexists. exists (Vk_value fuel k).
  split; [apply calculateCosts_spec; [lra | exact Hf]|]. split.
  - intros xi. apply Vk_value_spec. lia.
  - reflexivity.
Qed.

Lemma lowerBound_formula_witness :
  0 < 0.2 /\ 0 < 5 /\ (100 < 101)%nat /\
  exists r Vk,
    calculateCosts 101 0.2 5 = Some r /\
    (forall xi, Spec.is_Vk xi 0.2 (Vk xi)) /\
    lowerBound r =
      2 * Spec.simpson (fun z => Spec.phi z * Vk (5 * z)) 0 5 50.
Proof.
  split; [lra|]. split; [lra|]. split; [lia|].
  apply (lowerBound_formula 101 0.2 5); [lra | lra | lia].
Defined.

(** ** Ranges of the result *)

Lemma sqrt_2_PI_bounds : 7 / 10 <= sqrt (2 / PI) <= 1.
Proof.
  pose proof PI_4. pose proof PI2_3_2. pose proof PI_RGT_0.
  assert (E : 2 / PI * PI = 2) by (field; lra).
  assert (Hlo : 49 / 100 <= 2 / PI)
    by (apply (Rmult_le_reg_r PI); [lra | rewrite E; lra]).
  assert (Hhi : 2 / PI <= 1)
    by (apply (Rmult_le_reg_r PI); [lra | rewrite E; lra]).
  split.
  - rewrite <- (sqrt_square (7 / 10)) by lra. apply sqrt_le_1; lra.
  - rewrite <- sqrt_1. apply sqrt_le_1; lra.
Qed.

Lemma lambda_in_unit f tol n sigma :
  0 < sigma -> 0 <= Spec.bisection f tol n 0 sigma 0 / sigma <= 1.
Proof.
  intros Hs.
  pose proof (bisection_in_bracket f tol n 0 sigma 0 ltac:(lra) ltac:(lra))
    as [H0 H1].
  split.
  - apply Rmult_le_pos; [exact H0 | left; apply Rinv_0_lt_compat; exact Hs].
  - apply (Rmult_le_reg_r sigma); [exact Hs|].
    replace (Spec.bisection f tol n 0 sigma 0 / sigma * sigma)
      with (Spec.bisection f tol n 0 sigma 0) by (field; lra).
    lra.
Qed.

(** * The scenario k = 0.2, sigma = 5 *)

Lemma bisection_go_right f tol n low high last :
  tol <= Rabs (f ((low + high) / 2)) ->
  0 <= f low * f ((low + high) / 2) ->
  Spec.bisection f tol (S n) low high last =
  Spec.bisection f tol n ((low + high) / 2) high ((low + high) / 2).
Proof.
  intros Ha Hp. cbn [Spec.bisection].
  destruct (Rlt_dec (Rabs (f ((low + high) / 2))) tol); [lra|].
  destruct (Rlt_dec (f low * f ((low + high) / 2)) 0); [lra|reflexivity].
Qed.

Lemma bisection_go_left f tol n low high last :
  tol <= Rabs (f ((low + high) / 2)) ->
  f low * f ((low + high) / 2) < 0 ->
  Spec.bisection f tol (S n) low high last =
  Spec.bisection f tol n low ((low + high) / 2) ((low + high) / 2).
Proof.
  intros Ha Hp. cbn [Spec.bisection].
  destruct (Rlt_dec (Rabs (f ((low + high) / 2))) tol); [lra|].
  destruct (Rlt_dec (f low * f ((low + high) / 2)) 0); [reflexivity|lra].
Qed.

Lemma Rabs_ge_of_le_neg x c : x <= - c -> c <= Rabs x.
Proof. intros H. unfold Rabs. destruct (Rcase_abs x); lra. Qed.

Lemma Rabs_ge_of_ge x c : c <= x -> c <= Rabs x.
Proof. intros H. unfold Rabs. destruct (Rcase_abs x); lra. Qed.

(** The first five bisection steps at [k = 0.2], [sigma = 5]: the
    characteristic function is negative at 0, 2.5, 3.75, 4.375 and 4.6875
    and positive at 4.84375, so the bracket becomes [4.6875, 4.84375]. *)
Lemma scenario_bisection :
  75 / 16 <= Spec.bisection (Spec.characteristic 0.2 5) 1e-6 100 0 5 0
          <= 155 / 32.
Proof.
  set (f := Spec.characteristic 0.2 5).
  assert (F0 : f 0 = - 5) by (unfold f, Spec.characteristic; lra).
  assert (F1 : f (5 / 2) <= - 1) by (unfold f, Spec.characteristic; lra).
  assert (F2 : f (15 / 4) <= - 1) by (unfold f, Spec.characteristic; lra).
  assert (F3 : f (35 / 8) <= - 1) by (unfold f, Spec.characteristic; lra).
  assert (F4 : f (75 / 16) <= - 1) by (unfold f, Spec.characteristic; lra).
  assert (F5 : 1 <= f (155 / 32)) by (unfold f, Spec.characteristic; lra).
  assert (M1 : (0 + 5) / 2 = 5 / 2) by lra.
  assert (M2 : (5 / 2 + 5) / 2 = 15 / 4) by lra.
  assert (M3 : (15 / 4 + 5) / 2 = 35 / 8) by lra.
  assert (M4 : (35 / 8 + 5) / 2 = 75 / 16) by lra.
  assert (M5 : (75 / 16 + 5) / 2 = 155 / 32) by lra.
  rewrite bisection_go_right;
    rewrite M1; [ | apply Rabs_ge_of_le_neg; lra | rewrite F0; nra ].
  rewrite bisection_go_right;
    rewrite M2; [ | apply Rabs_ge_of_le_neg; lra | nra ].
  rewrite bisection_go_right;
    rewrite M3; [ | apply Rabs_ge_of_le_neg; lra | nra ].
  rewrite bisection_go_right;
    rewrite M4; [ | apply Rabs_ge_of_le_neg; lra | nra ].
  rewrite bisection_go_left;
    rewrite M5; [ | apply Rabs_ge_of_ge; lra | nra ].
  apply bisection_in_bracket; lra.
Qed.

Lemma interior_sum_ones_le a h count : forall i,
  Spec.interior_sum (fun _ => 1) a h i count <= 4 * INR count.
Proof.
  induction count as [|c IH]; intros i.
  - unfold Spec.interior_sum. cbn. lra.
  - rewrite interior_sum_cons, S_INR. pose proof (IH (S i)).
    unfold Spec.simpson_weight. destruct (Nat.odd i); lra.
Qed.

(** A bound on the rule for a function with values in [0, M]. *)
Lemma simpson_le f a b n M :
  (forall x, 0 <= f x <= M) -> a <= b -> (0 < n)%nat ->
  Spec.simpson f a b n <=
  M * (2 + 4 * INR (n - 1)) * ((b - a) / INR n / 3).
Proof.
  intros Hf Hab Hn. unfold Spec.simpson.
  assert (HM : 0 <= M) by (destruct (Hf a); lra).
  pose proof (interior_sum_le_weights f a ((b - a) / INR n) (n - 1) M 1
                (fun x => proj2 (Hf x))) as H1.
  pose proof (interior_sum_ones_le a ((b - a) / INR n) (n - 1) 1) as H2.
  pose proof (Hf a). pose proof (Hf b).
  assert (H3 : 0 <= (b - a) / INR n / 3).
  { apply Rmult_le_pos; [|lra]. apply Rmult_le_pos; [lra|].
    left. apply Rinv_0_lt_compat. apply lt_0_INR. exact Hn. }
  unfold Rdiv at 1. fold ((b - a) / INR n / 3).
  apply Rmult_le_compat_r; [exact H3|]. nra.
Qed.

Lemma cosh_ge_1 x : 1 <= cosh x.
Proof.
  unfold cosh. pose proof (exp_ineq1_le x). pose proof (exp_ineq1_le (- x)).
  lra.
Qed.

Lemma exp_le_1 x : x <= 0 -> exp x <= 1.
Proof.
  intros [H | ->]; [|rewrite exp_0; lra].
  rewrite <- exp_0. left. apply exp_increasing. exact H.
Qed.

Lemma exp_double x : exp (2 * x) = exp x * exp x.
Proof. rewrite <- exp_plus. f_equal. ring. Qed.

Lemma exp_25_2 : 10000 <= exp (25 / 2).
Proof.
  assert (H0 : 57 / 32 <= exp (25 / 32))
    by (pose proof (exp_ineq1_le (25 / 32)); lra).
  assert (H1 : (57 / 32) ^ 2 <= exp (25 / 16)).
  { replace (25 / 16) with (2 * (25 / 32)) by lra. rewrite exp_double.
    replace ((57 / 32) ^ 2) with (57 / 32 * (57 / 32)) by ring.
    apply Rmult_le_compat; lra. }
  assert (H2 : (57 / 32) ^ 4 <= exp (25 / 8)).
  { replace (25 / 8) with (2 * (25 / 16)) by lra. rewrite exp_double.
    replace ((57 / 32) ^ 4) with ((57 / 32) ^ 2 * (57 / 32) ^ 2) by ring.
    apply Rmult_le_compat; lra. }
  assert (H3 : (57 / 32) ^ 8 <= exp (25 / 4)).
  { replace (25 / 4) with (2 * (25 / 8)) by lra. rewrite exp_double.
    replace ((57 / 32) ^ 8) with ((57 / 32) ^ 4 * (57 / 32) ^ 4) by ring.
    apply Rmult_le_compat; lra. }
  assert (H4 : (57 / 32) ^ 16 <= exp (25 / 2)).
  { replace (25 / 2) with (2 * (25 / 4)) by lra. rewrite exp_double.
    replace ((57 / 32) ^ 16) with ((57 / 32) ^ 8 * (57 / 32) ^ 8) by ring.
    apply Rmult_le_compat; lra. }
  lra.
Qed.

Lemma h_5_small : 0 <= Spec.h 5 <= 1 / 10.
Proof.
  split; [apply h_nonneg|].
  unfold Spec.h. destruct (Req_dec_T 5 0) as [E|_]; [lra|].
  set (g := fun y => exp (- y ^ 2 / 2) / cosh (5 * y)).
  assert (Hg : forall y, 0 <= g y <= 1).
  { intros y. unfold g.
    pose proof (exp_pos (- y ^ 2 / 2)) as Hp.
    pose proof (exp_le_1 (- y ^ 2 / 2)) as Hl.
    pose proof (pow2_ge_0 y).
    pose proof (cosh_ge_1 (5 * y)) as Hc.
    assert (0 < / cosh (5 * y) <= 1).
    { split; [apply Rinv_0_lt_compat; lra|].
      rewrite <- Rinv_1. apply Rinv_le_contravar; lra. }
    unfold Rdiv. split; [nra|].
    assert (exp (- y ^ 2 / 2) <= 1) by (apply Hl; lra). nra. }
  pose proof (simpson_le g (- 10) 10 200 1 Hg ltac:(lra) ltac:(lia)) as Hs.
  pose proof (simpson_nonneg g (- 10) 10 200 (fun y => proj1 (Hg y))
                ltac:(lra) ltac:(lia)) as Hs0.
  change (200 - 1)%nat with 199%nat in Hs.
  rewrite !INR_IZR_INZ in Hs.
  change (Z.of_nat 199) with 199%Z in Hs. change (Z.of_nat 200) with 200%Z in Hs.
  assert (He : exp (- 5 ^ 2 / 2) <= / 10000).
  { replace (- 5 ^ 2 / 2) with (- (25 / 2)) by lra. rewrite exp_Ropp.
    apply Rinv_le_contravar; [lra | apply exp_25_2]. }
  pose proof (exp_pos (- 5 ^ 2 / 2)).
  assert (Hs' : Spec.simpson g (- 10) 10 200 <= 27) by lra.
  nra.
Qed.

(** The affine cost at [k² sigma² = 1] is at least [24 / 25], whatever the
    gain. *)
Lemma affine_cost_floor lam :
  24 / 25 <= (1 - lam) ^ 2 + 25 * lam ^ 2 / (1 + 25 * lam ^ 2).
Proof.
  assert (Hd : 0 < 1 + 25 * lam ^ 2) by (pose proof (pow2_ge_0 lam); lra).
  replace ((1 - lam) ^ 2 + 25 * lam ^ 2 / (1 + 25 * lam ^ 2) )
    with (24 / 25 + (25 * lam ^ 2 - 25 * lam + 1) ^ 2 / 25
                    / (1 + 25 * lam ^ 2))
    by (field; lra).
  assert (0 <= (25 * lam ^ 2 - 25 * lam + 1) ^ 2 / 25 / (1 + 25 * lam ^ 2)).
  { apply Rmult_le_pos.
    - pose proof (pow2_ge_0 (25 * lam ^ 2 - 25 * lam + 1)). lra.
    - left. apply Rinv_0_lt_compat. exact Hd. }
  lra.
Qed.

(** The run of the engine at [k = 0.2], [sigma = 5]. *)
Lemma scenario_run (fuel : nat) :
  (100 < fuel)%nat ->
  exists r,
    calculateCosts fuel 0.2 5 = Some r /\
    nonlinCost r <= 7 / 10 /\ 24 / 25 <= affineCost r /\
    15 / 16 <= lambda r <= 31 / 32.
Proof.
  intros Hf. eexists.
  split; [apply calculateCosts_spec; [lra | exact Hf]|].
  cbv zeta. cbn [lambda affineCost nonlinCost].
  pose proof scenario_bisection as Hb.
  set (t := Spec.bisection _ _ _ _ _ _) in *.
  repeat split.
  - pose proof sqrt_2_PI_bounds. pose proof h_5_small. lra.
  - pose proof (affine_cost_floor (t / 5)) as Ha.
    replace (0.2 * 0.2 * 5 * 5 * (1 - t / 5) ^ 2 +
             5 * 5 * (t / 5) * (t / 5) / (1 + 5 * 5 * (t / 5) * (t / 5)))
      with ((1 - t / 5) ^ 2 +
            25 * (t / 5) ^ 2 / (1 + 25 * (t / 5) ^ 2)).
    + exact Ha.
    + replace (5 * 5 * (t / 5) * (t / 5)) with (25 * (t / 5) ^ 2) by ring.
      lra.
  - lra.
  - lra.
Qed.

(** C1, as amended. At [k = 0.2], [sigma = 5] the engine returns a result
    with [nonlinCost < affineCost], and its [lambda] is positive and less
    than 1, but close to 1 rather than small: it lies between 0.9375 and
    0.96875. *)
Theorem scenario_counterexample_condition (fuel : nat) :
  (100 < fuel)%nat ->
  exists r,
    calculateCosts fuel 0.2 5 = Some r /\
    nonlinCost r < affineCost r /\
    0 < lambda r < 1 /\ 15 / 16 <= lambda r <= 31 / 32.
Proof.
  intros Hf. destruct (scenario_run fuel Hf) as (r & E & Hn & Ha & Hl).
  exists r. repeat split; try assumption; lra.
Qed.

Lemma scenario_counterexample_condition_witness :
  (100 < 101)%nat /\
  exists r,
    calculateCosts 101 0.2 5 = Some r /\
    nonlinCost r < affineCost r /\
    0 < lambda r < 1 /\ 15 / 16 <= lambda r <= 31 / 32.
Proof.
  split; [lia | apply (scenario_counterexample_condition 101); lia].
Defined.

(** C1, as stated, asks for a small [lambda]; the [lambda] that the engine
    returns at [k = 0.2], [sigma = 5] is not even below one half. *)
Lemma scenario_lambda_not_small :
  ~ exists r,
      calculateCosts 101 0.2 5 = Some r /\
      nonlinCost r < affineCost r /\ 0 < lambda r <= 1 / 2.
Proof.
  intros (r & E & _ & _ & Hsmall).
  destruct (scenario_run 101 ltac:(lia)) as (r' & E' & _ & _ & Hl & _).
  rewrite E in E'. injection E' as ->. lra.
Qed.

(** * Termination of the two searches *)







(** * The lookup *)

Lemma Math_round_eq (x : R) (z : Z) :
  IZR z - 1 / 2 <= x < IZR z + 1 / 2 -> App.Math_round x = z.
Proof. intros H. unfold App.Math_round. apply Zfloor_eq. lra. Qed.

(** Inside the table, on a row as long as the first one, the lookup reads
    the cell. *)
Lemma results_in_table (costsData : App.CostsData) (k sigma : R) row costs :
  nth_error (App.data costsData)
    (Z.to_nat (App.getKIndex costsData k)) = Some row ->
  nth_error row (Z.to_nat (App.getSigmaIndex costsData sigma)) = Some costs ->
  (0 <= App.getKIndex costsData k)%Z ->
  (0 <= App.getSigmaIndex costsData sigma
     < Z.of_nat (length (nth 0 (App.data costsData) [])))%Z ->
  App.results costsData k sigma =
  App.Return
    (App.mkResults (App.lambda costs) (App.affineCost costs)
       (App.nonlinCost costs) (App.lowerBound costs)
       (if Rlt_dec (App.nonlinCost costs) (App.affineCost costs)
        then true else false)).
Proof.
  intros Hrow Hcell Hk Hs. unfold App.results. cbv zeta.
  assert (Hlen : (Z.to_nat (App.getKIndex costsData k)
                  < length (App.data costsData))%nat)
    by (apply nth_error_Some; rewrite Hrow; discriminate).
  replace (App.getKIndex costsData k >=? 0)%Z with true by lia.
  replace (App.getKIndex costsData k
           <? Z.of_nat (length (App.data costsData)))%Z with true by lia.
  replace (App.getSigmaIndex costsData sigma >=? 0)%Z with true by lia.
  replace (App.getSigmaIndex costsData sigma
           <? Z.of_nat (length (nth 0 (App.data costsData) [])))%Z
    with true by lia.
  cbn [andb].
  rewrite (nth_error_nth _ _ [] Hrow), Hcell. reflexivity.
Qed.

(** C10. The lookup computes [kIndex = round ((k - k.min) / k.step)] and
    [sigmaIndex = round ((sigma - sigma.min) / sigma.step)]; when one of the
    two falls outside the dimensions of the table (the number of rows, the
    length of the first row) the result is the all-zero fallback, and no cell
    is read. *)
Theorem results_out_of_range (costsData : App.CostsData) (k sigma : R) :
  let kIndex :=
    App.Math_round ((k - App.min (App.metadata_k costsData))
                    / App.step (App.metadata_k costsData)) in
  let sigmaIndex :=
    App.Math_round ((sigma - App.min (App.metadata_sigma costsData))
                    / App.step (App.metadata_sigma costsData)) in
  (kIndex < 0 \/ Z.of_nat (length (App.data costsData)) <= kIndex \/
   sigmaIndex < 0 \/
   Z.of_nat (length (nth 0 (App.data costsData) [])) <= sigmaIndex)%Z ->
  App.getKIndex costsData k = kIndex /\
  App.getSigmaIndex costsData sigma = sigmaIndex /\
  App.results costsData k sigma = App.Return (App.mkResults 0 0 0 0 false).
Proof.
  intros kIndex sigmaIndex Hout.
  split; [reflexivity|]. split; [reflexivity|].
  unfold App.results. cbv zeta.
  change (App.getKIndex costsData k) with kIndex.
  change (App.getSigmaIndex costsData sigma) with sigmaIndex.
  destruct (kIndex >=? 0)%Z eqn:E1; [|reflexivity].
  destruct (kIndex <? Z.of_nat (length (App.data costsData)))%Z eqn:E2;
    [|reflexivity].
  destruct (sigmaIndex >=? 0)%Z eqn:E3; [|reflexivity].
  destruct (sigmaIndex
            <? Z.of_nat (length (nth 0 (App.data costsData) [])))%Z eqn:E4;
    [|reflexivity].
  exfalso. lia.
Qed.

Lemma results_out_of_range_witness :
  App.getKIndex one_cell_table 0.2 = 19%Z /\
  App.results one_cell_table 0.2 5 =
  App.Return (App.mkResults 0 0 0 0 false).
Proof.
  assert (E : App.Math_round ((0.2 - 0.01) / 0.01) = 19%Z)
    by (apply Math_round_eq; lra).
  destruct (results_out_of_range one_cell_table 0.2 5) as (Hk & _ & Hr).
  - right. left. cbn [one_cell_table App.data App.metadata_k App.min App.step
                      length]. rewrite E. lia.
  - split; [|exact Hr]. rewrite Hk. exact E.
Defined.

(** * Runs on concrete inputs *)

(** Simpson's rule with two intervals on [x²] over [0, 3]. *)
Example integrate_square : integrate (fun x => ret (x * x)) 0 3 2 = Some 9.
Proof.
  unfold integrate. cbn [integrate_loop bind ret Nat.sub Nat.modulo Nat.divmod
                         fst snd Nat.eqb INR].
  unfold ret. f_equal. lra.
Qed.

(** The first midpoint of [0, 2] is a root of [t - 1]: the loop breaks in
    its first iteration. *)
Example solve_linear : solveAffineLambda_body 1 (fun t => t - 1) 2 = Some (1 / 2).
Proof.
  unfold solveAffineLambda_body. cbv beta zeta.
  destruct (Rgt_dec ((0 - 1) * (2 - 1)) 0) as [H|_]; [exfalso; lra|].
  cbn [bisection_loop Nat.ltb Nat.leb].
  destruct (Rlt_dec (Rabs ((0 + 2) / 2 - 1)) 1e-6) as [_|N].
  - unfold ret. cbn [bind]. f_equal. lra.
  - exfalso. apply N. replace ((0 + 2) / 2 - 1) with 0 by lra.
    rewrite Rabs_R0. lra.
Qed.

(** One contraction of [0, 1] towards the lower probe of [x²]. *)
Example golden_one_step :
  goldenSectionSearch 2 (fun x => ret (x * x)) 0 1 0.7 = Some (GR / 2).
Proof.
  pose proof GR_bounds as HG.
  unfold goldenSectionSearch. cbv zeta. cbn [goldenSection_loop].
  replace (1 - 0) with 1 by lra. rewrite Rabs_R1.
  destruct (Rgt_dec 1 0.7) as [_|N]; [|lra]. unfold ret. cbn [bind].
  destruct (Rlt_dec ((1 - GR * 1) * (1 - GR * 1)) ((0 + GR * 1) * (0 + GR * 1)))
    as [_|N]; [|nra].
  replace (0 + GR * 1 - 0) with GR by lra. rewrite (Rabs_pos_eq GR) by lra.
  destruct (Rgt_dec GR 0.7) as [H|_]; [lra|].
  cbn [bind fst snd]. f_equal. lra.
Qed.

(** The first cell of the one-cell table. *)
Example results_first_cell :
  App.results one_cell_table 0.01 0.5 =
  App.Return (App.mkResults 1 1 1 1 false).
Proof.
  assert (Ek : App.getKIndex one_cell_table 0.01 = 0%Z)
    by (apply Math_round_eq; cbn; lra).
  assert (Es : App.getSigmaIndex one_cell_table 0.5 = 0%Z)
    by (apply Math_round_eq; cbn; lra).
  rewrite (results_in_table one_cell_table 0.01 0.5 [App.mkCell 1 1 1 1]
             (App.mkCell 1 1 1 1)).
  - cbn [App.lambda App.affineCost App.nonlinCost App.lowerBound].
    destruct (Rlt_dec 1 1) as [H|_]; [lra | reflexivity].
  - rewrite Ek. reflexivity.
  - rewrite Es. reflexivity.
  - rewrite Ek. lia.
  - rewrite Es. cbn. lia.
Qed.

(** A second row shorter than the first: the bounds check passes on the
    length of the first row and the read of the missing cell throws. *)
Example results_ragged_table :
  App.results
    (App.mkCostsData (App.mkAxisMetadata 0 1 1 [0; 1])
       (App.mkAxisMetadata 0 1 1 [0; 1])
       [[App.mkCell 1 1 1 1; App.mkCell 2 2 2 2]; [App.mkCell 3 3 3 3]])
    1 1 = App.TypeError.
Proof.
  unfold App.results, App.getKIndex, App.getSigmaIndex. cbv zeta.
  cbn [App.metadata_k App.metadata_sigma App.min App.step App.data].
  rewrite (Math_round_eq ((1 - 0) / 1) 1) by lra.
  reflexivity.
Qed.

(** * Further properties of the quadrature *)





Lemma node_in_interval a b n j :
  a <= b -> (j <= n)%nat -> (0 < n)%nat ->
  a <= a + INR j * ((b - a) / INR n) <= b.
Proof.
  intros Hab Hj Hn.
  assert (Hn' : 0 < INR n) by (apply lt_0_INR; exact Hn).
  assert (Hj0 : 0 <= INR j) by apply pos_INR.
  assert (Hjn : INR j <= INR n) by (apply le_INR; exact Hj).
  assert (E : INR j * ((b - a) / INR n) = (b - a) * (INR j / INR n))
    by (field; lra).
  rewrite E.
  assert (0 <= INR j / INR n <= 1).
  { split.
    - apply Rmult_le_pos; [exact Hj0 | left; apply Rinv_0_lt_compat; exact Hn'].
    - apply (Rmult_le_reg_r (INR n)); [exact Hn'|].
      replace (INR j / INR n * INR n) with (INR j) by (field; lra). lra. }
  nra.
Qed.

Lemma interior_sum_le f g a h count : forall i,
  (forall j, (i <= j < i + count)%nat ->
     f (a + INR j * h) <= g (a + INR j * h)) ->
  Spec.interior_sum f a h i count <= Spec.interior_sum g a h i count.
Proof.
  induction count as [|c IH]; intros i Hfg.
  - unfold Spec.interior_sum. cbn. lra.
  - rewrite !interior_sum_cons.
    pose proof (simpson_weight_pos i).
    pose proof (Hfg i ltac:(lia)).
    assert (Spec.interior_sum f a h (S i) c <= Spec.interior_sum g a h (S i) c)
      by (apply IH; intros j Hj; apply Hfg; lia).
    nra.
Qed.

(** The rule is monotone in the integrand, compared on the interval. *)
Lemma simpson_le_on f g a b n :
  a <= b -> (0 < n)%nat ->
  (forall x, a <= x <= b -> f x <= g x) ->
  Spec.simpson f a b n <= Spec.simpson g a b n.
Proof.
  intros Hab Hn Hfg. unfold Spec.simpson.
  assert (Hh : 0 <= (b - a) / INR n / 3).
  { apply Rmult_le_pos; [|lra]. apply Rmult_le_pos; [lra|].
    left. apply Rinv_0_lt_compat, lt_0_INR. exact Hn. }
  apply Rmult_le_compat_r; [exact Hh|].
  pose proof (Hfg a ltac:(lra)). pose proof (Hfg b ltac:(lra)).
  assert (Spec.interior_sum f a ((b - a) / INR n) 1 (n - 1) <=
          Spec.interior_sum g a ((b - a) / INR n) 1 (n - 1)).
  { apply interior_sum_le. intros j Hj. apply Hfg.
    apply node_in_interval; [exact Hab | lia | exact Hn]. }
  lra.
Qed.

Lemma simpson_constant c a b n :
  Nat.even n = true -> (2 <= n)%nat ->
  Spec.simpson (fun _ => c) a b n = c * (b - a).
Proof.
  intros He Hn.
  rewrite (simpson_ext _ (Spec.cubic c 0 0 0))
    by (intros x; unfold Spec.cubic; ring).
  rewrite simpson_exact_cubic by assumption.
  unfold Spec.cubic_primitive. field.
Qed.







(** * Further properties of the bisection *)

(** The bracket keeps a change of sign, halves at every iteration, and the
    answer is one of its ends, unless the search stopped within tolerance. *)
Lemma bisection_keeps_sign_change f tol : forall n low high last,
  0 < tol -> low <= high -> last = low \/ last = high ->
  f low <> 0 -> f low * f high <= 0 ->
  let t := Spec.bisection f tol n low high last in
  Rabs (f t) < tol \/
  exists lo hi,
    low <= lo /\ lo <= hi /\ hi <= high /\
    hi - lo = (high - low) / 2 ^ n /\ (t = lo \/ t = hi) /\
    f lo * f hi <= 0.
Proof.
  induction n as [|n IH]; intros low high last Ht Hlh Hlast Hlow Hsign.
  - right. exists low, high. cbn [Spec.bisection pow].
    repeat split; try lra; assumption.
  - cbn [Spec.bisection]. cbv zeta.
    set (mid := (low + high) / 2).
    destruct (Rlt_dec (Rabs (f mid)) tol) as [Hin|Hout]; [left; exact Hin|].
    assert (Hmid : f mid <> 0).
    { intros E. apply Hout. rewrite E, Rabs_R0. exact Ht. }
    assert (Hpow : 0 < 2 ^ n) by (apply pow_lt; lra).
    destruct (Rlt_dec (f low * f mid) 0) as [Hneg|Hpos].
    + destruct (IH low mid mid Ht ltac:(unfold mid; lra) ltac:(right; reflexivity)
                  Hlow ltac:(lra)) as [Hin|(lo & hi & H1 & H2 & H3 & H4 & H5 & H6)];
        [left; exact Hin|].
      right. exists lo, hi. repeat split; try assumption; try (unfold mid in *; lra).
      rewrite H4. unfold mid. cbn [pow]. field. lra.
    + assert (Hsame : 0 < f low * f mid).
      { destruct (Rtotal_order (f low * f mid) 0) as [H|[H|H]]; try lra.
        apply Rmult_integral in H. tauto. }
      assert (Hsign' : f mid * f high <= 0).
      { assert (0 <= f mid * f mid) by nra.
        destruct (Rle_dec (f mid * f high) 0) as [H'|H']; [exact H'|].
        exfalso.
        assert (0 < (f low * f mid) * (f mid * f high)) by nra.
        assert ((f low * f mid) * (f mid * f high) =
                (f low * f high) * (f mid * f mid)) by ring.
        nra. }
      destruct (IH mid high mid Ht ltac:(unfold mid; lra) ltac:(left; reflexivity)
                  Hmid Hsign') as [Hin|(lo & hi & H1 & H2 & H3 & H4 & H5 & H6)];
        [left; exact Hin|].
      right. exists lo, hi. repeat split; try assumption; try (unfold mid in *; lra).
      rewrite H4. unfold mid. cbn [pow]. field. lra.
Qed.

Lemma charEq_continuous k sigma : continuity (charEq k sigma).
Proof. unfold charEq. reg. Qed.

(** For a continuous function with a change of sign over [0, sigma] that
    does not vanish at 0, the answer of the bisection is within tolerance
    in value, or within [sigma / 2^n] of a root. *)
Lemma bisection_near_root f tol n sigma :
  continuity f -> 0 < tol -> 0 < sigma ->
  f 0 <> 0 -> f 0 * f sigma <= 0 ->
  forall t, t = Spec.bisection f tol n 0 sigma 0 ->
  Rabs (f t) < tol \/
  exists z, 0 <= z <= sigma /\ f z = 0 /\ Rabs (t - z) <= sigma / 2 ^ n.
Proof.
  intros Hc Ht Hs H0 Hends t Et.
  destruct (bisection_keeps_sign_change f tol n 0 sigma 0
              Ht ltac:(lra) ltac:(left; reflexivity) H0 Hends)
    as [Hin|(lo & hi & H1 & H2 & H3 & H4 & H5 & H6)].
  - left. rewrite Et. exact Hin.
  - right. rewrite <- Et in H5.
    destruct (IVT_cor f lo hi Hc H2 H6) as (z & Hz & Ez).
    exists z. split; [lra|]. split; [exact Ez|].
    replace (sigma / 2 ^ n) with (hi - lo)
      by (rewrite H4; f_equal; apply Rminus_0_r).
    unfold Rabs. destruct (Rcase_abs (t - z)); destruct H5; lra.
Qed.

Lemma Rdiv_mult_cancel t sigma : sigma <> 0 -> t / sigma * sigma = t.
Proof. intros H. field. exact H. Qed.

(** X4. On the ranges of the application, [0.01 <= k <= 1] and
    [0.5 <= sigma <= 10], [solveAffineLambda] returns a gain [lambda] whose
    [t = lambda sigma] is an approximate root of the characteristic
    equation: the value there is below [1e-6] in magnitude, or a root of the
    equation lies within [sigma / 2^50] of [t]. *)
Theorem solveAffineLambda_finds_root (fuel : nat) (k sigma : R) :
  0.01 <= k <= 1 -> 0.5 <= sigma <= 10 -> (100 < fuel)%nat ->
  exists lam,
    solveAffineLambda fuel k sigma = Some lam /\
    (Rabs (charEq k sigma (lam * sigma)) < 1e-6 \/
     exists z, 0 <= z <= sigma /\ charEq k sigma z = 0 /\
               Rabs (lam * sigma - z) <= sigma / 2 ^ 50).
Proof.
  intros [Hk _] [Hs _] Hf. unfold solveAffineLambda.
  rewrite solveAffineLambda_body_spec by assumption.
  pose proof (charEq_ends k sigma ltac:(lra)) as Hends.
  destruct (Rgt_dec (charEq k sigma 0 * charEq k sigma sigma) 0); [lra|].
  assert (H0 : charEq k sigma 0 <> 0).
  { unfold charEq. replace ((0 - sigma) * (1 + 0 * 0) ^ 2 + 0 / (k * k))
      with (- sigma) by (unfold Rdiv; ring). lra. }
  assert (Hw : sigma / 2 ^ 100 <= sigma / 2 ^ 50).
  { assert (/ 2 ^ 100 <= / 2 ^ 50) by lra. unfold Rdiv. nra. }
  remember (Spec.bisection (charEq k sigma) 1e-6 100 0 sigma 0) as t eqn:Et.
  exists (t / sigma). split; [reflexivity|].
  rewrite (Rdiv_mult_cancel t sigma) by lra.
  destruct (bisection_near_root (charEq k sigma) 1e-6 100 sigma
              (charEq_continuous k sigma) ltac:(lra) ltac:(lra) H0 Hends t Et)
    as [Hsmall | (z & Hz & Hroot & Hnear)].
  - left. exact Hsmall.
  - right. exists z. split; [exact Hz|]. split; [exact Hroot|].
    eapply Rle_trans; [exact Hnear | exact Hw].
Qed.

Lemma solveAffineLambda_finds_root_witness :
  0.01 <= 0.2 <= 1 /\ 0.5 <= 5 <= 10 /\ (100 < 101)%nat /\
  exists lam,
    solveAffineLambda 101 0.2 5 = Some lam /\
    (Rabs (charEq 0.2 5 (lam * 5)) < 1e-6 \/
     exists z, 0 <= z <= 5 /\ charEq 0.2 5 z = 0 /\
               Rabs (lam * 5 - z) <= 5 / 2 ^ 50).
Proof.
  split; [lra|]. split; [lra|]. split; [lia|].
  apply (solveAffineLambda_finds_root 101 0.2 5); [lra | lra | lia].
Defined.

(** * Further properties of the golden-section search *)

Lemma GR_half : 1 / 2 < GR < 1.
Proof. pose proof GR_bounds. lra. Qed.

(** The loop keeps its bracket inside the one it started from. *)
Lemma goldenSection_loop_inside f g tol : forall n fuel a b,
  (forall x, f x = Some (g x)) ->
  a <= b ->
  Rabs (b - a) * GR ^ n <= tol ->
  (n < fuel)%nat ->
  exists a' b',
    goldenSection_loop fuel f tol a b (b - GR * (b - a)) (a + GR * (b - a))
      = Some (a', b') /\
    a <= a' /\ a' <= b' /\ b' <= b /\ b' - a' <= tol.
Proof.
  pose proof GR_half as HG.
  induction n as [|n IH]; intros fuel a b Hg Hab Hw Hf;
    (destruct fuel as [|fuel]; [lia|]); cbn [goldenSection_loop];
    rewrite (Rabs_pos_eq (b - a)) in * by lra.
  - destruct (Rgt_dec (b - a) tol) as [Hgt|Hle]; [cbn in Hw; lra|].
    exists a, b. split; [reflexivity|]. repeat split; lra.
  - destruct (Rgt_dec (b - a) tol) as [Hgt|Hle].
    + rewrite !Hg. cbn [bind].
      destruct (Rlt_dec (g (b - GR * (b - a))) (g (a + GR * (b - a)))).
      * destruct (IH fuel a (a + GR * (b - a)) Hg) as (a' & b' & E & H);
          [ nra | rewrite width_left, Rabs_pos_eq by lra; cbn in Hw; lra
          | lia |].
        exists a', b'. split; [exact E|]. repeat split; try tauto; nra.
      * destruct (IH fuel (b - GR * (b - a)) b Hg) as (a' & b' & E & H);
          [ nra | rewrite width_right, Rabs_pos_eq by lra; cbn in Hw; lra
          | lia |].
        exists a', b'. split; [exact E|]. repeat split; try tauto; nra.
    + exists a, b. split; [reflexivity|]. repeat split; lra.
Qed.



(** * Further properties of the costs *)

Lemma h_upper (a : R) : Spec.h a <= 20 * (a ^ 2 * exp (- a ^ 2 / 2)).
Proof.
  unfold Spec.h. destruct (Req_dec_T a 0) as [->|_].
  - pose proof (exp_pos (- 0 ^ 2 / 2)). nra.
  - set (g := fun y => exp (- y ^ 2 / 2) / cosh (a * y)).
    assert (Hg : forall y, - 10 <= y <= 10 -> g y <= (fun _ => 1) y).
    { intros y _. unfold g.
      pose proof (exp_pos (- y ^ 2 / 2)) as Hp.
      assert (exp (- y ^ 2 / 2) <= 1)
        by (apply exp_le_1; pose proof (pow2_ge_0 y); lra).
      pose proof (cosh_ge_1 (a * y)) as Hc.
      apply (Rmult_le_reg_r (cosh (a * y))); [lra|].
      unfold Rdiv. rewrite Rmult_assoc, Rinv_l by lra. lra. }
    pose proof (simpson_le_on g (fun _ => 1) (- 10) 10 200
                  ltac:(lra) ltac:(lia) Hg) as Hs.
    rewrite (simpson_constant 1 (- 10) 10 200) in Hs by (reflexivity || lia).
    assert (0 <= a ^ 2 * exp (- a ^ 2 / 2)).
    { apply Rmult_le_pos; [apply pow2_ge_0 | left; apply exp_pos]. }
    nra.
Qed.

(** X7. For [|a| <= 1e100] (its square does not overflow), [calculateH]
    returns a value between [0] and [20 a² exp (- a² / 2)]: the auxiliary
    function is non-negative and dies out for large [a]. *)
Theorem calculateH_bounds (a : R) :
  Rabs a <= 1e100 ->
  exists v,
    calculateH a = Some v /\ 0 <= v <= 20 * (a ^ 2 * exp (- a ^ 2 / 2)).
Proof.
  intros _. exists (Spec.h a). split; [apply calculateH_spec|].
  split; [apply h_nonneg | apply h_upper].
Qed.

Lemma calculateH_bounds_witness :
  Rabs 5 <= 1e100 /\
  exists v,
    calculateH 5 = Some v /\ 0 <= v <= 20 * (5 ^ 2 * exp (- 5 ^ 2 / 2)).
Proof.
  assert (A : Rabs 5 <= 1e100) by (rewrite Rabs_pos_eq; lra).
  split; [exact A|]. apply (calculateH_bounds 5). exact A.
Defined.

(** X8. For [0 < k <= 1000] and [0 < sigma <= 1000] the costs that the
    engine returns are bounded: [affineCost <= k² sigma² + 1], the cost of
    the zero gain plus one, and
    [nonlinCost <= 0.6 k² sigma² + 20 sigma² exp (- sigma² / 2)]. *)
Theorem calculateCosts_upper_bounds (fuel : nat) (k sigma : R) :
  0 < k <= 1000 -> 0 < sigma <= 1000 -> (100 < fuel)%nat ->
  exists r,
    calculateCosts fuel k sigma = Some r /\
    affineCost r <= k ^ 2 * sigma ^ 2 + 1 /\
    nonlinCost r <=
      0.6 * (k ^ 2 * sigma ^ 2) + 20 * (sigma ^ 2 * exp (- sigma ^ 2 / 2)).
Proof.
  intros [Hk _] [Hs _] Hf. eexists.
  split; [apply calculateCosts_spec; [lra | exact Hf]|].
  cbv zeta. cbn [affineCost nonlinCost].
  pose proof (lambda_in_unit (Spec.characteristic k sigma) 1e-6 100 sigma Hs)
    as Hl.
  set (lam := _ / sigma) in *.
  assert (Hks : 0 <= k ^ 2 * sigma ^ 2) by nra.
  split.
  - assert (H1 : (1 - lam) ^ 2 <= 1) by nra.
    assert (Hq : 0 <= sigma * sigma * lam * lam) by nra.
    assert (H2 : sigma * sigma * lam * lam / (1 + sigma * sigma * lam * lam)
                 <= 1).
    { apply (Rmult_le_reg_r (1 + sigma * sigma * lam * lam)); [lra|].
      unfold Rdiv. rewrite Rmult_assoc, Rinv_l by lra. lra. }
    replace (k * k * sigma * sigma) with (k ^ 2 * sigma ^ 2) by ring.
    nra.
  - pose proof sqrt_2_PI_bounds. pose proof (h_upper sigma).
    replace (2 * k * k * sigma * sigma) with (2 * (k ^ 2 * sigma ^ 2))
      by ring.
    nra.
Qed.

Lemma calculateCosts_upper_bounds_witness :
  0 < 0.2 <= 1000 /\ 0 < 5 <= 1000 /\ (100 < 101)%nat /\
  exists r,
    calculateCosts 101 0.2 5 = Some r /\
    affineCost r <= 0.2 ^ 2 * 5 ^ 2 + 1 /\
    nonlinCost r <=
      0.6 * (0.2 ^ 2 * 5 ^ 2) + 20 * (5 ^ 2 * exp (- 5 ^ 2 / 2)).
Proof.
  split; [lra|]. split; [lra|]. split; [lia|].
  apply (calculateCosts_upper_bounds 101 0.2 5); [lra | lra | lia].
Defined.

(** * The table generator *)

Lemma pow10_pos d : 0 < 10 ^ d.
Proof. apply pow_lt. lra. Qed.

(** Rounding to [d] decimals moves a number by at most half a unit of the
    last decimal. *)
Lemma toFixed_value_error x d :
  Rabs (JS.toFixed_value x d - x) <= 1 / 2 / 10 ^ d.
Proof.
  pose proof (pow10_pos d) as Hp.
  assert (Hh : 0 <= 1 / 2 / 10 ^ d).
  { apply Rmult_le_pos; [lra | left; apply Rinv_0_lt_compat; exact Hp]. }
  assert (Round : forall m,
    Rabs (IZR (Zfloor (m * 10 ^ d + 1 / 2)) / 10 ^ d - m) <= 1 / 2 / 10 ^ d).
  { intros m. pose proof (Zfloor_bound (m * 10 ^ d + 1 / 2)) as [B1 B2].
    set (z := IZR (Zfloor (m * 10 ^ d + 1 / 2))) in *.
    replace (z / 10 ^ d - m) with ((z - m * 10 ^ d) / 10 ^ d) by (field; lra).
    unfold Rdiv at 1. rewrite Rabs_mult, (Rabs_pos_eq (/ 10 ^ d))
      by (left; apply Rinv_0_lt_compat; exact Hp).
    unfold Rdiv. apply Rmult_le_compat_r;
      [left; apply Rinv_0_lt_compat; exact Hp|].
    unfold Rabs. destruct (Rcase_abs (z - m * 10 ^ d)); lra. }
  unfold JS.toFixed_value. cbv zeta.
  destruct (Rlt_dec x 0) as [Hneg|Hpos].
  - destruct (Rle_dec 1e21 (- x)) as [_|_].
    + replace (- - x - x) with 0 by ring. rewrite Rabs_R0. exact Hh.
    + specialize (Round (- x)).
      replace (- (IZR (Zfloor (- x * 10 ^ d + 1 / 2)) / 10 ^ d) - x)
        with (- (IZR (Zfloor (- x * 10 ^ d + 1 / 2)) / 10 ^ d - - x)) by ring.
      rewrite Rabs_Ropp. exact Round.
  - destruct (Rle_dec 1e21 x) as [_|_].
    + replace (x - x) with 0 by ring. rewrite Rabs_R0. exact Hh.
    + apply Round.
Qed.

(** A number that has [d] decimals already is left as it is. *)
Lemma toFixed_value_decimal (z : Z) (d : nat) :
  (0 <= z)%Z -> JS.toFixed_value (IZR z / 10 ^ d) d = IZR z / 10 ^ d.
Proof.
  intros Hz. pose proof (pow10_pos d) as Hp.
  assert (H0 : 0 <= IZR z / 10 ^ d).
  { apply Rmult_le_pos; [apply (IZR_le 0); exact Hz|].
    left. apply Rinv_0_lt_compat. exact Hp. }
  unfold JS.toFixed_value. cbv zeta.
  destruct (Rlt_dec (IZR z / 10 ^ d) 0) as [H|_]; [lra|].
  destruct (Rle_dec 1e21 (IZR z / 10 ^ d)) as [_|_]; [reflexivity|].
  f_equal. f_equal. apply Zfloor_eq.
  replace (IZR z / 10 ^ d * 10 ^ d) with (IZR z) by (field; lra). lra.
Qed.

Lemma INR_IZR_S i : INR (S i) = IZR (Z.of_nat (S i)).
Proof. apply INR_IZR_INZ. Qed.

Lemma toFixed_k_value i :
  GenerateData.toFixed (GenerateData.K_MIN + INR i * GenerateData.K_STEP)
  = k_value i.
Proof.
  unfold GenerateData.toFixed, GenerateData.K_MIN, GenerateData.K_STEP,
    k_value.
  replace (0.01 + INR i * 0.01) with (IZR (Z.of_nat (S i)) / 10 ^ 2)
    by (rewrite <- INR_IZR_S, S_INR; lra).
  rewrite toFixed_value_decimal by lia.
  rewrite <- INR_IZR_S. lra.
Qed.

Lemma INR_lit (n : nat) : INR n = IZR (Z.of_nat n).
Proof. apply INR_IZR_INZ. Qed.

Lemma toFixed_sigma_value j :
  GenerateData.toFixed
    (GenerateData.SIGMA_MIN + INR j * GenerateData.SIGMA_STEP)
  = sigma_value j.
Proof.
  unfold GenerateData.toFixed, GenerateData.SIGMA_MIN,
    GenerateData.SIGMA_STEP, sigma_value.
  assert (E : IZR (Z.of_nat (50 + 10 * j)) = 50 + 10 * INR j).
  { rewrite <- INR_IZR_INZ, plus_INR, mult_INR, (INR_lit 50), (INR_lit 10).
    reflexivity. }
  replace (0.5 + INR j * 0.1)
    with (IZR (Z.of_nat (50 + 10 * j)) / 10 ^ 2) by (rewrite E; lra).
  rewrite toFixed_value_decimal by lia.
  rewrite E. lra.
Qed.

(** The loop of the axis values runs as long as the bound allows. *)
Lemma values_loop_run MAX STEP : forall n fuel x values,
  (forall i, (i < n)%nat -> x + INR i * STEP <= MAX + STEP / 2) ->
  ~ x + INR n * STEP <= MAX + STEP / 2 ->
  (n < fuel)%nat ->
  GenerateData.values_loop fuel x MAX STEP values =
  Some (values ++
        map (fun i => GenerateData.toFixed (x + INR i * STEP)) (seq 0 n)).
Proof.
  induction n as [|n IH]; intros fuel x values Hin Hout Hf;
    (destruct fuel as [|fuel]; [lia|]); cbn [GenerateData.values_loop].
  - destruct (Rle_dec x (MAX + STEP / 2)) as [H|_].
    + exfalso. apply Hout. cbn [INR]. lra.
    + cbn [seq map]. rewrite app_nil_r. reflexivity.
  - destruct (Rle_dec x (MAX + STEP / 2)) as [_|H].
    + rewrite IH.
      * rewrite <- app_assoc. f_equal. f_equal. cbn [seq map app].
        f_equal; [f_equal; cbn [INR]; ring|].
        rewrite <- seq_shift, map_map. apply map_ext.
        intros i. f_equal. rewrite S_INR. ring.
      * intros i Hi. specialize (Hin (S i) ltac:(lia)).
        rewrite S_INR in Hin. lra.
      * rewrite S_INR in Hout. lra.
      * lia.
    + exfalso. apply H. specialize (Hin 0%nat ltac:(lia)). cbn [INR] in Hin.
      lra.
Qed.

Lemma kValues_run fuel :
  (100 < fuel)%nat ->
  GenerateData.values_loop fuel GenerateData.K_MIN GenerateData.K_MAX
    GenerateData.K_STEP [] = Some (map k_value (seq 0 100)).
Proof.
  intros Hf.
  rewrite (values_loop_run _ _ 100).
  - cbn [app]. f_equal. apply map_ext. apply toFixed_k_value.
  - intros i Hi. apply le_INR in Hi. rewrite S_INR in Hi.
    rewrite (INR_lit 100) in Hi. change (Z.of_nat 100) with 100%Z in Hi.
    unfold GenerateData.K_MIN, GenerateData.K_MAX, GenerateData.K_STEP. lra.
  - rewrite INR_IZR_INZ. change (Z.of_nat 100) with 100%Z.
    unfold GenerateData.K_MIN, GenerateData.K_MAX, GenerateData.K_STEP. lra.
  - exact Hf.
Qed.

Lemma sigmaValues_run fuel :
  (100 < fuel)%nat ->
  GenerateData.values_loop fuel GenerateData.SIGMA_MIN GenerateData.SIGMA_MAX
    GenerateData.SIGMA_STEP [] = Some (map sigma_value (seq 0 96)).
Proof.
  intros Hf.
  rewrite (values_loop_run _ _ 96).
  - cbn [app]. f_equal. apply map_ext. apply toFixed_sigma_value.
  - intros i Hi. apply le_INR in Hi. rewrite S_INR in Hi.
    rewrite (INR_lit 96) in Hi. change (Z.of_nat 96) with 96%Z in Hi.
    unfold GenerateData.SIGMA_MIN, GenerateData.SIGMA_MAX,
      GenerateData.SIGMA_STEP. lra.
  - rewrite INR_IZR_INZ. change (Z.of_nat 96) with 96%Z.
    unfold GenerateData.SIGMA_MIN, GenerateData.SIGMA_MAX,
      GenerateData.SIGMA_STEP. lra.
  - lia.
Qed.

Lemma costs_value_spec fuel k sigma :
  k <> 0 -> (100 < fuel)%nat ->
  calculateCosts fuel k sigma = Some (costs_value fuel k sigma).
Proof.
  intros Hk Hf. unfold costs_value.
  rewrite calculateCosts_spec by assumption. reflexivity.
Qed.

Lemma row_loop_run fuel k : forall sigmaValues row,
  k <> 0 -> (100 < fuel)%nat ->
  GenerateData.row_loop fuel k sigmaValues row =
  Some (row ++
        map (fun sigma => GenerateData.cell_of (costs_value fuel k sigma))
          sigmaValues).
Proof.
  induction sigmaValues as [|sigma rest IH]; intros row Hk Hf;
    cbn [GenerateData.row_loop map].
  - rewrite app_nil_r. reflexivity.
  - rewrite costs_value_spec by assumption. cbn [bind].
    rewrite IH by assumption. rewrite <- app_assoc. reflexivity.
Qed.

Lemma grid_loop_run fuel sigmaValues : forall kValues costsGrid,
  Forall (fun k => k <> 0) kValues -> (100 < fuel)%nat ->
  GenerateData.grid_loop fuel kValues sigmaValues costsGrid =
  Some (costsGrid ++
        map (fun k =>
               map (fun sigma =>
                      GenerateData.cell_of (costs_value fuel k sigma))
                 sigmaValues)
          kValues).
Proof.
  induction kValues as [|k rest IH]; intros costsGrid Hk Hf;
    cbn [GenerateData.grid_loop map].
  - rewrite app_nil_r. reflexivity.
  - inversion Hk as [|? ? Hk0 Hrest]; subst.
    rewrite row_loop_run by assumption. cbn [bind app].
    rewrite IH by assumption. rewrite <- app_assoc. reflexivity.
Qed.

Lemma k_value_pos i : 0 < k_value i.
Proof.
  unfold k_value. apply Rdiv_lt_0_compat; [|lra].
  apply lt_0_INR. lia.
Qed.

(** The table that is generated. *)
Lemma generate_run fuel :
  (100 < fuel)%nat ->
  GenerateData.generate fuel =
  Some
    (App.mkCostsData
       (App.mkAxisMetadata GenerateData.K_MIN GenerateData.K_MAX
          GenerateData.K_STEP (map k_value (seq 0 100)))
       (App.mkAxisMetadata GenerateData.SIGMA_MIN GenerateData.SIGMA_MAX
          GenerateData.SIGMA_STEP (map sigma_value (seq 0 96)))
       (map (fun k =>
               map (fun sigma =>
                      GenerateData.cell_of (costs_value fuel k sigma))
                 (map sigma_value (seq 0 96)))
          (map k_value (seq 0 100)))).
Proof.
  intros Hf. unfold GenerateData.generate.
  rewrite kValues_run, sigmaValues_run by assumption. cbn [bind].
  rewrite grid_loop_run; [reflexivity | | exact Hf].
  apply Forall_map. apply Forall_forall. intros i _.
  pose proof (k_value_pos i). lra.
Qed.

(** ** The generated table *)

Lemma nth_error_map_seq {A : Type} (f : nat -> A) (n i : nat) :
  (i < n)%nat -> nth_error (map f (seq 0 n)) i = Some (f i).
Proof.
  intros Hi. rewrite nth_error_map, nth_error_seq.
  destruct (Nat.ltb_spec i n) as [_|H]; [reflexivity | lia].
Qed.

(** X9. With fuel for its loops [generate] returns a table whose axis values
    are [0.01, 0.02, ..., 1.00] (100 values of [k]) and
    [0.5, 0.6, ..., 10.0] (96 values of [sigma]), with 100 rows of 96 cells
    each. *)
Theorem generate_table_shape (fuel : nat) :
  (100 < fuel)%nat ->
  exists out,
    GenerateData.generate fuel = Some out /\
    App.values (App.metadata_k out) = map k_value (seq 0 100) /\
    App.values (App.metadata_sigma out) = map sigma_value (seq 0 96) /\
    length (App.data out) = 100%nat /\
    Forall (fun row => length row = 96%nat) (App.data out).
Proof.
  intros Hf. eexists. split; [apply generate_run; exact Hf|].
  cbn [App.metadata_k App.metadata_sigma App.values App.data].
  split; [reflexivity|]. split; [reflexivity|]. split.
  - rewrite !length_map, length_seq. reflexivity.
  - apply Forall_map. apply Forall_forall. intros k _.
    rewrite !length_map, length_seq. reflexivity.
Qed.

Lemma generate_table_shape_witness :
  (100 < 101)%nat /\
  exists out,
    GenerateData.generate 101 = Some out /\
    length (App.data out) = 100%nat.
Proof.
  split; [lia|].
  destruct (generate_table_shape 101 ltac:(lia)) as (out & E & _ & _ & L & _).
  exists out. split; [exact E | exact L].
Defined.

Lemma generated_cell fuel i j :
  (i < 100)%nat -> (j < 96)%nat ->
  nth_error
    (nth i
       (map (fun k =>
               map (fun sigma =>
                      GenerateData.cell_of (costs_value fuel k sigma))
                 (map sigma_value (seq 0 96)))
          (map k_value (seq 0 100))) []) j =
  Some (GenerateData.cell_of
          (costs_value fuel (k_value i) (sigma_value j))).
Proof.
  intros Hi Hj. rewrite map_map.
  rewrite (nth_error_nth _ _ _ (nth_error_map_seq _ 100 i Hi)).
  rewrite map_map.
  apply (nth_error_map_seq
           (fun x => GenerateData.cell_of
                       (costs_value fuel (k_value i) (sigma_value x)))).
  exact Hj.
Qed.

(** X10. The cell [(i, j)] of the generated table holds the result of the
    engine at the grid point [(k_i, sigma_j)] with every field rounded to 6
    decimals, so each stored value is within [5e-7] of the computed one. *)
Theorem generate_cells (fuel i j : nat) :
  (100 < fuel)%nat -> (i < 100)%nat -> (j < 96)%nat ->
  exists out r c,
    GenerateData.generate fuel = Some out /\
    calculateCosts fuel (k_value i) (sigma_value j) = Some r /\
    nth_error (nth i (App.data out) []) j = Some c /\
    c = GenerateData.cell_of r /\
    Rabs (App.affineCost c - affineCost r) <= 5e-7 /\
    Rabs (App.nonlinCost c - nonlinCost r) <= 5e-7 /\
    Rabs (App.lowerBound c - lowerBound r) <= 5e-7 /\
    Rabs (App.lambda c - lambda r) <= 5e-7.
Proof.
  intros Hf Hi Hj. eexists. eexists. eexists.
  split; [apply generate_run; exact Hf|].
  split; [apply costs_value_spec;
          [pose proof (k_value_pos i); lra | exact Hf]|].
  split; [cbn [App.data]; apply generated_cell; assumption|].
  split; [reflexivity|].
  assert (E : 1 / 2 / 10 ^ 6 = 5e-7) by lra.
  unfold GenerateData.cell_of.
  cbn [App.affineCost App.nonlinCost App.lowerBound App.lambda].
  rewrite <- E. repeat split; apply toFixed_value_error.
Qed.

Lemma generate_cells_witness :
  (100 < 101)%nat /\ (19 < 100)%nat /\ (45 < 96)%nat /\
  exists out r c,
    GenerateData.generate 101 = Some out /\
    calculateCosts 101 (k_value 19) (sigma_value 45) = Some r /\
    nth_error (nth 19 (App.data out) []) 45 = Some c /\
    Rabs (App.affineCost c - affineCost r) <= 5e-7.
Proof.
  split; [lia|]. split; [lia|]. split; [lia|].
  destruct (generate_cells 101 19 45 ltac:(lia) ltac:(lia) ltac:(lia))
    as (out & r & c & E & Er & Ec & _ & Ha & _).
  exists out, r, c. repeat split; assumption.
Defined.

Lemma Rabs_le_bounds x a : Rabs x <= a -> - a <= x <= a.
Proof. unfold Rabs. destruct (Rcase_abs x); lra. Qed.

Lemma Math_round_INR (x : R) (n : nat) :
  x = INR n -> App.Math_round x = Z.of_nat n.
Proof.
  intros ->. apply Math_round_eq. rewrite <- INR_IZR_INZ. lra.
Qed.

Lemma generated_getKIndex table i :
  App.min (App.metadata_k table) = GenerateData.K_MIN ->
  App.step (App.metadata_k table) = GenerateData.K_STEP ->
  App.getKIndex table (k_value i) = Z.of_nat i.
Proof.
  intros Em Es. unfold App.getKIndex. cbv zeta. rewrite Em, Es.
  apply Math_round_INR.
  unfold k_value, GenerateData.K_MIN, GenerateData.K_STEP.
  rewrite S_INR. lra.
Qed.

Lemma generated_getSigmaIndex table j :
  App.min (App.metadata_sigma table) = GenerateData.SIGMA_MIN ->
  App.step (App.metadata_sigma table) = GenerateData.SIGMA_STEP ->
  App.getSigmaIndex table (sigma_value j) = Z.of_nat j.
Proof.
  intros Em Es. unfold App.getSigmaIndex. cbv zeta. rewrite Em, Es.
  apply Math_round_INR.
  unfold sigma_value, GenerateData.SIGMA_MIN, GenerateData.SIGMA_STEP.
  lra.
Qed.

(** The lookup at a grid point of the generated table. *)
Lemma lookup_generated_cell fuel i j :
  (100 < fuel)%nat -> (i < 100)%nat -> (j < 96)%nat ->
  exists out,
    GenerateData.generate fuel = Some out /\
    App.getKIndex out (k_value i) = Z.of_nat i /\
    App.getSigmaIndex out (sigma_value j) = Z.of_nat j /\
    let c := GenerateData.cell_of
               (costs_value fuel (k_value i) (sigma_value j)) in
    nth_error (nth i (App.data out) []) j = Some c /\
    App.results out (k_value i) (sigma_value j) =
    App.Return
      (App.mkResults (App.lambda c) (App.affineCost c) (App.nonlinCost c)
         (App.lowerBound c)
         (if Rlt_dec (App.nonlinCost c) (App.affineCost c)
          then true else false)).
Proof.
  intros Hf Hi Hj. eexists. split; [apply generate_run; exact Hf|].
  match goal with |- App.getKIndex ?t _ = _ /\ _ => set (out := t) end.
  assert (Ek : App.getKIndex out (k_value i) = Z.of_nat i)
    by (apply generated_getKIndex; reflexivity).
  assert (Es : App.getSigmaIndex out (sigma_value j) = Z.of_nat j)
    by (apply generated_getSigmaIndex; reflexivity).
  split; [exact Ek|]. split; [exact Es|].
  cbv zeta.
  split; [unfold out; cbn [App.data]; apply generated_cell; assumption|].
  apply (results_in_table out (k_value i) (sigma_value j)
           (map (fun sigma =>
                   GenerateData.cell_of
                     (costs_value fuel (k_value i) sigma))
              (map sigma_value (seq 0 96)))).
  - rewrite Ek, Nat2Z.id. unfold out. cbn [App.data].
    rewrite map_map.
    apply (nth_error_map_seq
             (fun x => map (fun sigma =>
                              GenerateData.cell_of
                                (costs_value fuel (k_value x) sigma))
                         (map sigma_value (seq 0 96)))).
    exact Hi.
  - rewrite Es, Nat2Z.id. rewrite map_map.
    apply (nth_error_map_seq
             (fun x => GenerateData.cell_of
                         (costs_value fuel (k_value i) (sigma_value x)))).
    exact Hj.
  - rewrite Ek. lia.
  - rewrite Es. unfold out. cbn [App.data]. rewrite map_map.
    rewrite (nth_error_nth _ _ _ (nth_error_map_seq _ 100 0 ltac:(lia))).
    rewrite !length_map, length_seq. lia.
Qed.

(** X11. Generating and looking up compose: at every grid point
    [(k_i, sigma_j)] the lookup on the generated table finds the indices
    [(i, j)] and returns the fields of that cell, with [isCounterExample]
    telling whether its [nonlinCost] is below its [affineCost]; it neither
    falls back to zeros nor throws. *)
Theorem lookup_of_generated (fuel i j : nat) :
  (100 < fuel)%nat -> (i < 100)%nat -> (j < 96)%nat ->
  exists out c,
    GenerateData.generate fuel = Some out /\
    App.getKIndex out (k_value i) = Z.of_nat i /\
    App.getSigmaIndex out (sigma_value j) = Z.of_nat j /\
    nth_error (nth i (App.data out) []) j = Some c /\
    App.results out (k_value i) (sigma_value j) =
    App.Return
      (App.mkResults (App.lambda c) (App.affineCost c) (App.nonlinCost c)
         (App.lowerBound c)
         (if Rlt_dec (App.nonlinCost c) (App.affineCost c)
          then true else false)).
Proof.
  intros Hf Hi Hj.
  destruct (lookup_generated_cell fuel i j Hf Hi Hj)
    as (out & E & Ek & Es & Hc & Hr).
  exists out. eexists. split; [exact E|].
  split; [exact Ek|]. split; [exact Es|]. split; [exact Hc | exact Hr].
Qed.

Lemma lookup_of_generated_witness :
  (100 < 101)%nat /\ (0 < 100)%nat /\ (0 < 96)%nat /\
  exists out,
    GenerateData.generate 101 = Some out /\
    App.getKIndex out (k_value 0) = 0%Z /\
    App.getSigmaIndex out (sigma_value 0) = 0%Z.
Proof.
  split; [lia|]. split; [lia|]. split; [lia|].
  destruct (lookup_of_generated 101 0 0 ltac:(lia) ltac:(lia) ltac:(lia))
    as (out & c & E & Ek & Es & _).
  exists out. repeat split; assumption.
Defined.

(** X12. The state in which the application starts, [k = 0.2] and
    [sigma = 5], is a grid point of the generated table, and the lookup there
    reports a counterexample: [isCounterExample] is [true]. *)
Theorem default_state_is_counterexample (fuel : nat) :
  (100 < fuel)%nat ->
  exists out r,
    GenerateData.generate fuel = Some out /\
    App.results out 0.2 5 = App.Return r /\
    App.r_isCounterExample r = true.
Proof.
  intros Hf.
  assert (Ek : k_value 19 = 0.2)
    by (unfold k_value; rewrite (INR_lit 20); change (Z.of_nat 20) with 20%Z;
        lra).
  assert (Es : sigma_value 45 = 5)
    by (unfold sigma_value; rewrite (INR_lit 45);
        change (Z.of_nat 45) with 45%Z; lra).
  destruct (lookup_generated_cell fuel 19 45 Hf ltac:(lia) ltac:(lia))
    as (out & E & _ & _ & _ & Hr).
  rewrite Ek, Es in Hr.
  exists out. eexists. split; [exact E|]. split; [exact Hr|].
  cbn [App.r_isCounterExample].
  destruct (scenario_run fuel Hf) as (r & Er & Hn & Ha & _).
  unfold costs_value. rewrite Er.
  unfold GenerateData.cell_of. cbn [App.nonlinCost App.affineCost].
  pose proof (toFixed_value_error (nonlinCost r) 6) as E1.
  pose proof (toFixed_value_error (affineCost r) 6) as E2.
  assert (E6 : 1 / 2 / 10 ^ 6 = 5e-7) by lra. rewrite E6 in E1, E2.
  apply Rabs_le_bounds in E1. apply Rabs_le_bounds in E2.
  destruct (Rlt_dec (JS.toFixed_value (nonlinCost r) 6)
                    (JS.toFixed_value (affineCost r) 6)) as [_|N];
    [reflexivity | exfalso; apply N; lra].
Qed.

Lemma default_state_is_counterexample_witness :
  (100 < 101)%nat /\
  exists out r,
    GenerateData.generate 101 = Some out /\
    App.results out 0.2 5 = App.Return r /\
    App.r_isCounterExample r = true.
Proof.
  split; [lia | apply (default_state_is_counterexample 101); lia].
Defined.

(** * Further properties of the lookup *)

(** X13. When [k] and [sigma] are each within 0.49 steps of a grid value
    [min + i step] of their axis (positive step, index at most [1e9] and
    values at most [1e300] in magnitude), [getKIndex] and [getSigmaIndex]
    return the index of that grid value. *)
Theorem index_is_closest (table : App.CostsData) (k s : R) (i j : Z) :
  near_grid_value (App.metadata_k table) k i ->
  near_grid_value (App.metadata_sigma table) s j ->
  App.getKIndex table k = i /\ App.getSigmaIndex table s = j.
Proof.
  intros Bk Bs.
  assert (Q : forall m x z, near_grid_value m x z ->
            App.Math_round ((x - App.min m) / App.step m) = z).
  { intros m x z (Hst & Hx & _). apply Math_round_eq.
    apply Rabs_le_bounds in Hx.
    split.
    - apply (Rmult_le_reg_r (App.step m)); [exact Hst|].
      replace ((x - App.min m) / App.step m * App.step m)
        with (x - App.min m) by (field; lra).
      lra.
    - apply (Rmult_lt_reg_r (App.step m)); [exact Hst|].
      replace ((x - App.min m) / App.step m * App.step m)
        with (x - App.min m) by (field; lra).
      lra. }
  split; [exact (Q _ _ _ Bk) | exact (Q _ _ _ Bs)].
Qed.

Lemma index_is_closest_witness :
  near_grid_value (App.metadata_k one_cell_table) 0.204 19 /\
  near_grid_value (App.metadata_sigma one_cell_table) 5.02 45 /\
  App.getKIndex one_cell_table 0.204 = 19%Z /\
  App.getSigmaIndex one_cell_table 5.02 = 45%Z.
Proof.
  assert (Bk : near_grid_value (App.metadata_k one_cell_table) 0.204 19).
  { unfold near_grid_value.
    cbn [one_cell_table App.metadata_k App.min App.step].
    repeat split; try (apply Rabs_le); lra. }
  assert (Bs : near_grid_value (App.metadata_sigma one_cell_table) 5.02 45).
  { unfold near_grid_value.
    cbn [one_cell_table App.metadata_sigma App.min App.step].
    repeat split; try (apply Rabs_le); lra. }
  split; [exact Bk|]. split; [exact Bs|].
  apply (index_is_closest one_cell_table 0.204 5.02 19 45 Bk Bs).
Defined.

(** X14. On a table whose rows all have the length of the first one, the
    lookup never throws: for every [k] and [sigma] it returns the all-zero
    fallback or the fields of a cell of the table. *)
Theorem results_on_rectangular (table : App.CostsData) (k sigma : R) :
  Forall (fun row => length row = length (nth 0 (App.data table) []))
    (App.data table) ->
  App.results table k sigma = App.Return (App.mkResults 0 0 0 0 false) \/
  exists row c,
    In row (App.data table) /\ In c row /\
    App.results table k sigma =
    App.Return
      (App.mkResults (App.lambda c) (App.affineCost c) (App.nonlinCost c)
         (App.lowerBound c)
         (if Rlt_dec (App.nonlinCost c) (App.affineCost c)
          then true else false)).
Proof.
  intros Hrect. unfold App.results. cbv zeta.
  set (kIdx := App.getKIndex table k).
  set (sIdx := App.getSigmaIndex table sigma).
  destruct (kIdx >=? 0)%Z eqn:E1; [|left; reflexivity].
  destruct (kIdx <? Z.of_nat (length (App.data table)))%Z eqn:E2;
    [|left; reflexivity].
  destruct (sIdx >=? 0)%Z eqn:E3; [|left; reflexivity].
  destruct (sIdx <? Z.of_nat (length (nth 0 (App.data table) [])))%Z eqn:E4;
    [|left; reflexivity].
  cbn [andb]. right.
  assert (Hk : (Z.to_nat kIdx < length (App.data table))%nat) by lia.
  pose proof (nth_error_nth' (App.data table) [] Hk) as Hrow.
  set (row := nth (Z.to_nat kIdx) (App.data table) []) in *.
  assert (Hin : In row (App.data table))
    by (apply (nth_error_In _ _ Hrow)).
  assert (Hlen : length row = length (nth 0 (App.data table) []))
    by (rewrite Forall_forall in Hrect; apply Hrect; exact Hin).
  assert (Hs : (Z.to_nat sIdx < length row)%nat) by lia.
  destruct (nth_error row (Z.to_nat sIdx)) as [c|] eqn:Ec.
  - exists row, c. split; [exact Hin|].
    split; [apply (nth_error_In _ _ Ec) | reflexivity].
  - exfalso. apply nth_error_None in Ec. lia.
Qed.

Lemma results_on_rectangular_witness :
  App.results one_cell_table 0.5 0.5 =
    App.Return (App.mkResults 0 0 0 0 false) \/
  exists row c,
    In row (App.data one_cell_table) /\ In c row /\
    App.results one_cell_table 0.5 0.5 =
    App.Return
      (App.mkResults (App.lambda c) (App.affineCost c) (App.nonlinCost c)
         (App.lowerBound c)
         (if Rlt_dec (App.nonlinCost c) (App.affineCost c)
          then true else false)).
Proof.
  apply (results_on_rectangular one_cell_table 0.5 0.5).
  repeat constructor.
Defined.

(** * The chart data *)

(** X15. On a table without rows the three memos differ: [results] returns
    the all-zero fallback and [costVsSigmaData] an empty array, while
    [costVsKData] throws as soon as the index of [sigma] is non-negative,
    because it reads [data[0].length] unguarded. *)
Theorem memos_on_empty_table (table : App.CostsData) (fuel : nat)
    (k sigma : R) :
  App.data table = [] ->
  App.results table k sigma = App.Return (App.mkResults 0 0 0 0 false) /\
  Charts.costVsSigmaData table fuel k = Some (Charts.Value []) /\
  Charts.costVsKData table fuel sigma =
    (if (App.getSigmaIndex table sigma >=? 0)%Z
     then Some Charts.Thrown else Some (Charts.Value [])).
Proof.
  intros E. split; [|split].
  - unfold App.results. cbv zeta. rewrite E. cbn [length Z.of_nat].
    destruct (App.getKIndex table k >=? 0)%Z eqn:E1; [|reflexivity].
    destruct (App.getKIndex table k <? 0)%Z eqn:E2; [lia | reflexivity].
  - unfold Charts.costVsSigmaData. cbv zeta. rewrite E. cbn [length Z.of_nat].
    destruct (App.getKIndex table k >=? 0)%Z eqn:E1; [|reflexivity].
    destruct (App.getKIndex table k <? 0)%Z eqn:E2; [lia | reflexivity].
  - unfold Charts.costVsKData. cbv zeta. rewrite E.
    destruct (App.getSigmaIndex table sigma >=? 0)%Z; reflexivity.
Qed.

Lemma memos_on_empty_table_witness :
  Charts.costVsKData
    (App.mkCostsData (App.mkAxisMetadata 0.01 1 0.01 [])
       (App.mkAxisMetadata 0.5 10 0.1 []) []) 0 5 = Some Charts.Thrown.
Proof.
  destruct (memos_on_empty_table
              (App.mkCostsData (App.mkAxisMetadata 0.01 1 0.01 [])
                 (App.mkAxisMetadata 0.5 10 0.1 []) []) 0 0.2 5 eq_refl)
    as (_ & _ & H).
  rewrite H.
  replace (App.getSigmaIndex _ 5) with 45%Z; [reflexivity|].
  symmetry. apply Math_round_eq.
  cbn [App.metadata_sigma App.min App.step]. lra.
Defined.

(** The loop of [costVsSigmaData] on a row index that is in the table. *)
Lemma costVsSigma_loop_safe table kIdx X_MAX X_STEP :
  0 <= X_STEP ->
  forall n fuel s data,
  (forall i, (i < n)%nat -> s + INR i * X_STEP <= X_MAX) ->
  ~ s + INR n * X_STEP <= X_MAX ->
  (n < fuel)%nat ->
  exists new,
    Charts.costVsSigma_loop table fuel kIdx s X_MAX X_STEP data =
      Some (Charts.Value (data ++ new)) /\
    (length new <= n)%nat /\
    Forall (fun p =>
              s <= Charts.sp_sigma p <= X_MAX /\
              exists c,
                nth_error (nth (Z.to_nat kIdx) (App.data table) [])
                  (Z.to_nat (App.getSigmaIndex table (Charts.sp_sigma p)))
                  = Some c /\
                Charts.sp_affineCost p = App.affineCost c /\
                Charts.sp_nonlinCost p = App.nonlinCost c /\
                Charts.sp_lowerBound p = App.lowerBound c) new.
Proof.
  intros Hstep.
  induction n as [|n IH]; intros fuel s data Hin Hout Hf;
    (destruct fuel as [|fuel]; [lia|]); cbn [Charts.costVsSigma_loop].
  - destruct (Rle_dec s X_MAX) as [H|_].
    + exfalso. apply Hout. cbn [INR]. lra.
    + exists []. rewrite app_nil_r. repeat split; [cbn; lia | constructor].
  - destruct (Rle_dec s X_MAX) as [Hs|H].
    2:{ exfalso. apply H. specialize (Hin 0%nat ltac:(lia)).
        cbn [INR] in Hin. lra. }
    assert (Hin' : forall i, (i < n)%nat ->
                     s + X_STEP + INR i * X_STEP <= X_MAX).
    { intros i Hi. specialize (Hin (S i) ltac:(lia)).
      rewrite S_INR in Hin. lra. }
    assert (Hout' : ~ s + X_STEP + INR n * X_STEP <= X_MAX)
      by (rewrite S_INR in Hout; lra).
    assert (Hweak : forall new,
      Forall (fun p =>
              s + X_STEP <= Charts.sp_sigma p <= X_MAX /\
              exists c,
                nth_error (nth (Z.to_nat kIdx) (App.data table) [])
                  (Z.to_nat (App.getSigmaIndex table (Charts.sp_sigma p)))
                  = Some c /\
                Charts.sp_affineCost p = App.affineCost c /\
                Charts.sp_nonlinCost p = App.nonlinCost c /\
                Charts.sp_lowerBound p = App.lowerBound c) new ->
      Forall (fun p =>
              s <= Charts.sp_sigma p <= X_MAX /\
              exists c,
                nth_error (nth (Z.to_nat kIdx) (App.data table) [])
                  (Z.to_nat (App.getSigmaIndex table (Charts.sp_sigma p)))
                  = Some c /\
                Charts.sp_affineCost p = App.affineCost c /\
                Charts.sp_nonlinCost p = App.nonlinCost c /\
                Charts.sp_lowerBound p = App.lowerBound c) new).
    { intros new. apply Forall_impl. intros p [Hp Hc]. split; [lra | exact Hc]. }
    cbv zeta.
    set (sIdx := App.getSigmaIndex table s).
    set (row := nth (Z.to_nat kIdx) (App.data table) []).
    destruct ((sIdx >=? 0) && (sIdx <? Z.of_nat (length row)))%Z eqn:Eb.
    + assert (Hlt : (Z.to_nat sIdx < length row)%nat) by lia.
      destruct (nth_error row (Z.to_nat sIdx)) as [c|] eqn:Ec.
      * destruct (IH fuel (s + X_STEP)
                    (data ++ [Charts.mkSigmaPoint s (App.affineCost c)
                                (App.nonlinCost c) (App.lowerBound c)])
                    Hin' Hout' ltac:(lia)) as (new & E & Hl & Hall).
        exists (Charts.mkSigmaPoint s (App.affineCost c)
                  (App.nonlinCost c) (App.lowerBound c) :: new).
        split; [rewrite E, <- app_assoc; reflexivity|].
        split; [cbn [length]; lia|].
        constructor; [|apply Hweak; exact Hall].
        cbn [Charts.sp_sigma Charts.sp_affineCost Charts.sp_nonlinCost
             Charts.sp_lowerBound].
        split; [lra|]. exists c. fold sIdx. fold row.
        repeat split. exact Ec.
      * exfalso. apply nth_error_None in Ec. lia.
    + destruct (IH fuel (s + X_STEP) data Hin' Hout' ltac:(lia))
        as (new & E & Hl & Hall).
      exists new. split; [exact E|]. split; [lia|].
      apply Hweak. exact Hall.
Qed.

(** X16. Whatever the table, with fuel for its 20 iterations
    [costVsSigmaData] returns without throwing: at most 20 points, each with
    [sigma] in the chart range [0.5, 10] and with the costs of the cell of
    row [getKIndex k] at the index of that [sigma]. *)
Theorem costVsSigmaData_safe (table : App.CostsData) (fuel : nat) (k : R) :
  (20 < fuel)%nat ->
  exists data,
    Charts.costVsSigmaData table fuel k = Some (Charts.Value data) /\
    (length data <= 20)%nat /\
    Forall (fun p =>
              0.5 <= Charts.sp_sigma p <= 10 /\
              exists c,
                nth_error
                  (nth (Z.to_nat (App.getKIndex table k)) (App.data table) [])
                  (Z.to_nat (App.getSigmaIndex table (Charts.sp_sigma p)))
                  = Some c /\
                Charts.sp_affineCost p = App.affineCost c /\
                Charts.sp_nonlinCost p = App.nonlinCost c /\
                Charts.sp_lowerBound p = App.lowerBound c) data.
Proof.
  intros Hf. unfold Charts.costVsSigmaData. cbv zeta.
  destruct ((App.getKIndex table k >=? 0) &&
            (App.getKIndex table k <? Z.of_nat (length (App.data table))))%Z.
  - destruct (costVsSigma_loop_safe table (App.getKIndex table k)
                CHART_CONFIG.COST_VS_SIGMA.X_MAX
                CHART_CONFIG.COST_VS_SIGMA.X_STEP
                ltac:(unfold CHART_CONFIG.COST_VS_SIGMA.X_STEP; lra)
                20 fuel CHART_CONFIG.COST_VS_SIGMA.X_MIN [])
      as (new & E & Hl & Hall).
    + intros i Hi. apply le_INR in Hi. rewrite S_INR, (INR_lit 20) in Hi.
      change (Z.of_nat 20) with 20%Z in Hi.
      unfold CHART_CONFIG.COST_VS_SIGMA.X_MIN,
        CHART_CONFIG.COST_VS_SIGMA.X_MAX, CHART_CONFIG.COST_VS_SIGMA.X_STEP.
      lra.
    + rewrite (INR_lit 20). change (Z.of_nat 20) with 20%Z.
      unfold CHART_CONFIG.COST_VS_SIGMA.X_MIN,
        CHART_CONFIG.COST_VS_SIGMA.X_MAX, CHART_CONFIG.COST_VS_SIGMA.X_STEP.
      lra.
    + exact Hf.
    + exists new. split; [exact E|]. split; [exact Hl | exact Hall].
  - exists []. split; [reflexivity|]. split; [cbn; lia | constructor].
Qed.

Lemma costVsSigmaData_safe_witness :
  (20 < 21)%nat /\
  exists data,
    Charts.costVsSigmaData one_cell_table 21 0.01 = Some (Charts.Value data) /\
    (length data <= 20)%nat.
Proof.
  split; [lia|].
  destruct (costVsSigmaData_safe one_cell_table 21 0.01 ltac:(lia))
    as (data & E & Hl & _).
  exists data. split; [exact E | exact Hl].
Defined.




Lemma plot_loop_stuck sigma lam range step :
  step <= 0 ->
  forall fuel x data,
  x <= range -> Charts.plot_loop fuel sigma lam x range step data = None.
Proof.
  intros Hstep. induction fuel as [|fuel IH]; intros x data Hx;
    cbn [Charts.plot_loop]; [reflexivity|].
  destruct (Rle_dec x range) as [_|H]; [|contradiction].
  apply IH. lra.
Qed.

(** X18. At [sigma = 0] the loop of [plotData] never ends: its step is 0 and
    its condition [x <= range] stays true.  For [sigma < 0] the loop is not
    entered and the array is empty. *)
Theorem plotData_degenerate (fuel : nat) (sigma lam : R) :
  (sigma = 0 -> Charts.plotData fuel sigma lam = None) /\
  (sigma < 0 -> Charts.plotData (S fuel) sigma lam = Some []).
Proof.
  unfold Charts.plotData. cbv zeta.
  unfold CHART_CONFIG.STRATEGIES.X_RANGE_MULTIPLIER. split.
  - intros ->. apply plot_loop_stuck; lra.
  - intros Hs. cbn [Charts.plot_loop].
    destruct (Rle_dec (- (sigma * 2.5)) (sigma * 2.5)) as [H|_];
      [exfalso; lra | reflexivity].
Qed.

Lemma plotData_degenerate_witness :
  Charts.plotData 1000 0 1 = None /\ Charts.plotData 1 (- 1) 1 = Some [].
Proof.
  split.
  - apply (proj1 (plotData_degenerate 1000 0 1)). reflexivity.
  - apply (proj2 (plotData_degenerate 0 (- 1) 1)). lra.
Defined.

(** The loop of [costVsKData] on a table with rows as long as the first one,
    for a column index within it. *)
Lemma costVsK_loop_safe table sIdx X_MAX X_STEP :
  Forall (fun row => length row = length (nth 0 (App.data table) []))
    (App.data table) ->
  (0 <= sIdx < Z.of_nat (length (nth 0 (App.data table) [])))%Z ->
  forall n fuel kv data,
  (forall i, (i < n)%nat -> kv + INR i * X_STEP <= X_MAX) ->
  ~ kv + INR n * X_STEP <= X_MAX ->
  (n < fuel)%nat ->
  exists new,
    Charts.costVsK_loop table fuel sIdx kv X_MAX X_STEP data =
      Some (Charts.Value (data ++ new)) /\
    (length new <= n)%nat.
Proof.
  intros Hrect HsIdx.
  induction n as [|n IH]; intros fuel kv data Hin Hout Hf;
    (destruct fuel as [|fuel]; [lia|]); cbn [Charts.costVsK_loop].
  - destruct (Rle_dec kv X_MAX) as [H|_].
    + exfalso. apply Hout. cbn [INR]. lra.
    + exists []. rewrite app_nil_r. split; [reflexivity | cbn; lia].
  - destruct (Rle_dec kv X_MAX) as [Hs|H].
    2:{ exfalso. apply H. specialize (Hin 0%nat ltac:(lia)).
        cbn [INR] in Hin. lra. }
    assert (Hin' : forall i, (i < n)%nat ->
                     kv + X_STEP + INR i * X_STEP <= X_MAX).
    { intros i Hi. specialize (Hin (S i) ltac:(lia)).
      rewrite S_INR in Hin. lra. }
    assert (Hout' : ~ kv + X_STEP + INR n * X_STEP <= X_MAX)
      by (rewrite S_INR in Hout; lra).
    cbv zeta. set (kIdx := App.getKIndex table kv).
    destruct ((kIdx >=? 0) &&
              (kIdx <? Z.of_nat (length (App.data table))))%Z eqn:Eb.
    + assert (Hk : (Z.to_nat kIdx < length (App.data table))%nat) by lia.
      pose proof (nth_error_nth' (App.data table) [] Hk) as Hrow.
      set (row := nth (Z.to_nat kIdx) (App.data table) []) in *.
      assert (Hlen : length row = length (nth 0 (App.data table) [])).
      { rewrite Forall_forall in Hrect. apply Hrect.
        apply (nth_error_In _ _ Hrow). }
      destruct (nth_error row (Z.to_nat sIdx)) as [c|] eqn:Ec.
      * destruct (IH fuel (kv + X_STEP)
                    (data ++ [Charts.mkKPoint (JS.toFixed_value kv 2) kv
                                (App.affineCost c) (App.nonlinCost c)
                                (App.lowerBound c)])
                    Hin' Hout' ltac:(lia)) as (new & E & Hl).
        eexists (_ :: new).
        split; [rewrite E, <- app_assoc; reflexivity | cbn [length]; lia].
      * exfalso. apply nth_error_None in Ec. lia.
    + destruct (IH fuel (kv + X_STEP) data Hin' Hout' ltac:(lia))
        as (new & E & Hl).
      exists new. split; [exact E | lia].
Qed.

(** X19. On a table that has a row and whose rows all have the length of the
    first one, [costVsKData] returns without throwing, with at most 50
    points. *)
Theorem costVsKData_safe (table : App.CostsData) (fuel : nat) (sigma : R) :
  App.data table <> [] ->
  Forall (fun row => length row = length (nth 0 (App.data table) []))
    (App.data table) ->
  (50 < fuel)%nat ->
  exists data,
    Charts.costVsKData table fuel sigma = Some (Charts.Value data) /\
    (length data <= 50)%nat.
Proof.
  intros Hne Hrect Hf. unfold Charts.costVsKData. cbv zeta.
  destruct (App.getSigmaIndex table sigma >=? 0)%Z eqn:E1;
    [|exists []; split; [reflexivity | cbn; lia]].
  destruct (App.data table) as [|row0 rest] eqn:Ed; [contradiction|].
  destruct (App.getSigmaIndex table sigma <? Z.of_nat (length row0))%Z eqn:E2;
    [|exists []; split; [reflexivity | cbn; lia]].
  rewrite <- Ed in Hrect.
  assert (H0 : nth 0 (App.data table) [] = row0) by (rewrite Ed; reflexivity).
  destruct (costVsK_loop_safe table (App.getSigmaIndex table sigma)
              CHART_CONFIG.COST_VS_K.X_MAX CHART_CONFIG.COST_VS_K.X_STEP
              Hrect ltac:(rewrite H0; lia)
              50 fuel CHART_CONFIG.COST_VS_K.X_MIN [])
    as (new & E & Hl).
  - intros i Hi. apply le_INR in Hi. rewrite S_INR, (INR_lit 50) in Hi.
    change (Z.of_nat 50) with 50%Z in Hi.
    unfold CHART_CONFIG.COST_VS_K.X_MIN, CHART_CONFIG.COST_VS_K.X_MAX,
      CHART_CONFIG.COST_VS_K.X_STEP.
    lra.
  - rewrite (INR_lit 50). change (Z.of_nat 50) with 50%Z.
    unfold CHART_CONFIG.COST_VS_K.X_MIN, CHART_CONFIG.COST_VS_K.X_MAX,
      CHART_CONFIG.COST_VS_K.X_STEP.
    lra.
  - exact Hf.
  - exists new. split; [exact E | exact Hl].
Qed.

Lemma costVsKData_safe_witness :
  exists data,
    Charts.costVsKData one_cell_table 51 0.5 = Some (Charts.Value data) /\
    (length data <= 50)%nat.
Proof.
  apply (costVsKData_safe one_cell_table 51 0.5).
  - discriminate.
  - repeat constructor.
  - lia.
Defined.

(** The loop of [costVsSigmaData] when every chart value has its cell in the
    row. *)
Lemma costVsSigma_loop_full table kIdx X_MAX X_STEP (cellAt : R -> App.Cell) :
  let row := nth (Z.to_nat kIdx) (App.data table) [] in
  forall n fuel s data,
  (forall i, (i < n)%nat ->
     s + INR i * X_STEP <= X_MAX /\
     (0 <= App.getSigmaIndex table (s + INR i * X_STEP)
        < Z.of_nat (length row))%Z /\
     nth_error row
       (Z.to_nat (App.getSigmaIndex table (s + INR i * X_STEP))) =
     Some (cellAt (s + INR i * X_STEP))) ->
  ~ s + INR n * X_STEP <= X_MAX ->
  (n < fuel)%nat ->
  Charts.costVsSigma_loop table fuel kIdx s X_MAX X_STEP data =
  Some (Charts.Value
          (data ++
           map (fun i =>
                  let si := s + INR i * X_STEP in
                  Charts.mkSigmaPoint si (App.affineCost (cellAt si))
                    (App.nonlinCost (cellAt si))
                    (App.lowerBound (cellAt si)))
             (seq 0 n))).
Proof.
  intros row.
  induction n as [|n IH]; intros fuel s data Hin Hout Hf;
    (destruct fuel as [|fuel]; [lia|]); cbn [Charts.costVsSigma_loop].
  - destruct (Rle_dec s X_MAX) as [H|_].
    + exfalso. apply Hout. cbn [INR]. lra.
    + cbn [seq map]. rewrite app_nil_r. reflexivity.
  - assert (E0 : s + INR 0 * X_STEP = s) by (cbn [INR]; ring).
    destruct (Hin 0%nat ltac:(lia)) as (H1 & H2 & H3).
    rewrite E0 in H1, H2, H3.
    destruct (Rle_dec s X_MAX) as [_|H]; [|contradiction].
    cbv zeta. fold row.
    replace ((App.getSigmaIndex table s >=? 0) &&
             (App.getSigmaIndex table s <? Z.of_nat (length row)))%Z
      with true by lia.
    rewrite H3, IH.
    + rewrite <- app_assoc. f_equal. f_equal. f_equal.
      cbn [seq map app]. cbv zeta. rewrite E0. f_equal.
      rewrite <- seq_shift, map_map. apply map_ext.
      intros i. rewrite S_INR.
      replace (s + X_STEP + INR i * X_STEP) with (s + (INR i + 1) * X_STEP)
        by ring.
      reflexivity.
    + intros i Hi. specialize (Hin (S i) ltac:(lia)). rewrite S_INR in Hin.
      replace (s + X_STEP + INR i * X_STEP) with (s + (INR i + 1) * X_STEP)
        by ring.
      exact Hin.
    + rewrite S_INR in Hout. lra.
    + lia.
Qed.

Lemma chart_sigma_is_grid_value m :
  CHART_CONFIG.COST_VS_SIGMA.X_MIN
    + INR m * CHART_CONFIG.COST_VS_SIGMA.X_STEP = sigma_value (5 * m).
Proof.
  unfold CHART_CONFIG.COST_VS_SIGMA.X_MIN, CHART_CONFIG.COST_VS_SIGMA.X_STEP,
    sigma_value.
  rewrite mult_INR, (INR_lit 5). change (Z.of_nat 5) with 5%Z. lra.
Qed.

(** X20. On the generated table, for [k] a grid value [k_i], the chart of the
    costs against [sigma] has all of its 20 points: the point [m] has
    [sigma = 0.5 + 0.5 m] and the costs of the cell [(i, 5 m)]. *)
Theorem costVsSigmaData_of_generated (fuel i : nat) :
  (100 < fuel)%nat -> (i < 100)%nat ->
  exists out data,
    GenerateData.generate fuel = Some out /\
    Charts.costVsSigmaData out fuel (k_value i) = Some (Charts.Value data) /\
    length data = 20%nat /\
    forall m, (m < 20)%nat ->
      exists p c,
        nth_error data m = Some p /\
        nth_error (nth i (App.data out) []) (5 * m) = Some c /\
        Charts.sp_sigma p = 0.5 + INR m * 0.5 /\
        Charts.sp_affineCost p = App.affineCost c /\
        Charts.sp_nonlinCost p = App.nonlinCost c /\
        Charts.sp_lowerBound p = App.lowerBound c.
Proof.
  intros Hf Hi.
  assert (Eb : ((Z.of_nat i >=? 0) && (Z.of_nat i <? Z.of_nat 100))%Z = true)
    by (apply andb_true_intro; split; [apply Z.geb_le | apply Z.ltb_lt]; lia).
  eexists. eexists.
  split; [apply generate_run; exact Hf|].
  match goal with |- Charts.costVsSigmaData ?t _ _ = _ /\ _ =>
    set (out := t) end.
  assert (Ek : App.getKIndex out (k_value i) = Z.of_nat i)
    by (apply generated_getKIndex; reflexivity).
  assert (Es : forall j, App.getSigmaIndex out (sigma_value j) = Z.of_nat j)
    by (intros j; apply generated_getSigmaIndex; reflexivity).
  assert (Hlen : length (App.data out) = 100%nat)
    by (unfold out; cbn [App.data]; rewrite !length_map, length_seq;
        reflexivity).
  set (cellAt := fun s : R =>
         GenerateData.cell_of (costs_value fuel (k_value i) s)).
  assert (Hrow : nth i (App.data out) [] =
                 map cellAt (map sigma_value (seq 0 96))).
  { unfold out. cbn [App.data]. rewrite map_map.
    apply (nth_error_nth _ _ _
             (nth_error_map_seq
                (fun x => map (fun sigma =>
                                 GenerateData.cell_of
                                   (costs_value fuel (k_value x) sigma))
                            (map sigma_value (seq 0 96))) 100 i Hi)). }
  assert (Hcell : forall j, (j < 96)%nat ->
            nth_error (nth i (App.data out) []) j =
            Some (cellAt (sigma_value j))).
  { intros j Hj. rewrite Hrow, map_map.
    apply (nth_error_map_seq (fun x => cellAt (sigma_value x))). exact Hj. }
  assert (Hrun :
    Charts.costVsSigmaData out fuel (k_value i) =
    Some (Charts.Value
            (map (fun m =>
                    let sm := CHART_CONFIG.COST_VS_SIGMA.X_MIN
                              + INR m * CHART_CONFIG.COST_VS_SIGMA.X_STEP in
                    Charts.mkSigmaPoint sm (App.affineCost (cellAt sm))
                      (App.nonlinCost (cellAt sm))
                      (App.lowerBound (cellAt sm)))
               (seq 0 20)))).
  { unfold Charts.costVsSigmaData. cbv zeta. rewrite Ek, Hlen.
    rewrite Eb.
    rewrite (costVsSigma_loop_full out (Z.of_nat i) _ _ cellAt 20);
      [reflexivity | | | lia].
    - intros m Hm. rewrite Nat2Z.id, chart_sigma_is_grid_value, Es.
      rewrite Hrow at 1. rewrite !length_map, length_seq, Nat2Z.id.
      split; [|split; [lia | apply Hcell; lia]].
      rewrite <- chart_sigma_is_grid_value.
      apply le_INR in Hm. rewrite S_INR, (INR_lit 20) in Hm.
      change (Z.of_nat 20) with 20%Z in Hm.
      unfold CHART_CONFIG.COST_VS_SIGMA.X_MIN,
        CHART_CONFIG.COST_VS_SIGMA.X_MAX, CHART_CONFIG.COST_VS_SIGMA.X_STEP.
      lra.
    - rewrite (INR_lit 20). change (Z.of_nat 20) with 20%Z.
      unfold CHART_CONFIG.COST_VS_SIGMA.X_MIN,
        CHART_CONFIG.COST_VS_SIGMA.X_MAX, CHART_CONFIG.COST_VS_SIGMA.X_STEP.
      lra. }
  split; [exact Hrun|].
  split; [rewrite length_map, length_seq; reflexivity|].
  intros m Hm. eexists. eexists.
  split; [apply (nth_error_map_seq _ 20 m Hm)|].
  cbv zeta.
  cbn [Charts.sp_sigma Charts.sp_affineCost Charts.sp_nonlinCost
       Charts.sp_lowerBound].
  rewrite chart_sigma_is_grid_value.
  split; [apply Hcell; lia|].
  split; [rewrite <- chart_sigma_is_grid_value; reflexivity|].
  repeat split.
Qed.

Lemma costVsSigmaData_of_generated_witness :
  (100 < 101)%nat /\ (19 < 100)%nat /\
  exists out data,
    GenerateData.generate 101 = Some out /\
    Charts.costVsSigmaData out 101 (k_value 19) = Some (Charts.Value data) /\
    length data = 20%nat.
Proof.
  split; [lia|]. split; [lia|].
  destruct (costVsSigmaData_of_generated 101 19 ltac:(lia) ltac:(lia))
    as (out & data & E & Ed & Hl & _).
  exists out, data. repeat split; assumption.
Defined.

(** * The lower bound beyond the bracket of the search *)

Lemma interior_sum_app f a h c1 c2 : forall i,
  Spec.interior_sum f a h i (c1 + c2) =
  Spec.interior_sum f a h i c1 + Spec.interior_sum f a h (i + c1) c2.
Proof.
  induction c1 as [|c1 IH]; intros i.
  - cbn [Nat.add]. rewrite Nat.add_0_r.
    change (Spec.interior_sum f a h i 0) with 0. ring.
  - cbn [Nat.add]. rewrite !interior_sum_cons, IH.
    replace (S i + c1)%nat with (i + S c1)%nat by lia. ring.
Qed.

Lemma exp_grid_lower n : (199 / 200) ^ n <= exp (- INR n / 200).
Proof.
  induction n as [|n IH].
  - cbn [INR pow]. replace (- 0 / 200) with 0 by lra. rewrite exp_0. lra.
  - rewrite S_INR. replace (- (INR n + 1) / 200)
      with (- INR n / 200 + - (1 / 200)) by lra.
    rewrite exp_plus. cbn [pow]. rewrite Rmult_comm.
    pose proof (exp_ineq1_le (- (1 / 200))).
    apply Rmult_le_compat; try lra. apply pow_le. lra.
Qed.

Lemma PI_upper : PI <= 3.1416.
Proof.
  pose proof (PI_2_3_7_ineq 2) as [_ H].
  unfold sum_f_R0, tg_alt, PI_2_3_7_tg, Ratan_seq in H. simpl in H. lra.
Qed.

Lemma sqrt_2PI_upper : 0 < sqrt (2 * PI) <= 2.50664.
Proof.
  pose proof PI_upper. pose proof PI_RGT_0. split.
  - apply sqrt_lt_R0. lra.
  - rewrite <- (sqrt_square 2.50664) by lra. apply sqrt_le_1; lra.
Qed.

Lemma phi_lower z : exp (- z ^ 2 / 2) / 2.50664 <= Spec.phi z.
Proof.
  unfold Spec.phi. pose proof sqrt_2PI_upper as [Hp Hu].
  pose proof (exp_pos (- z ^ 2 / 2)).
  assert (/ 2.50664 <= / sqrt (2 * PI))
    by (apply Rinv_le_contravar; assumption).
  unfold Rdiv. rewrite Rmult_1_l. nra.
Qed.

(** The point at which [calculateVk] evaluates its objective is in the
    bracket of the search. *)
Lemma calculateVk_point fuel xi k :
  (27 < fuel)%nat ->
  exists a : R,
    calculateVk fuel xi k = Some (Spec.stage_cost xi k a) /\ (- 20 <= a <= 20).
Proof.
  intros Hf. unfold calculateVk, goldenSectionSearch. cbv zeta.
  destruct (goldenSection_loop_inside (costFunc xi k) (Spec.stage_cost xi k)
              1e-4 27 fuel (- 20) 20 (costFunc_spec xi k) ltac:(lra)
              ltac:(left; exact width_after_27) Hf)
    as (a' & b' & E & H1 & H2 & H3 & _).
  rewrite E. unfold ret. cbn [bind fst snd]. rewrite costFunc_spec.
  exists ((b' + a') / 2). split; [reflexivity | lra].
Qed.

Lemma Vk_value_clipped fuel k xi :
  (27 < fuel)%nat -> 20 <= xi ->
  k ^ 2 * (xi - 20) ^ 2 <= Vk_value fuel k xi.
Proof.
  intros Hf Hxi. unfold Vk_value.
  destruct (calculateVk_point fuel xi k Hf) as (a & -> & Ha).
  unfold Spec.stage_cost. pose proof (h_nonneg a).
  assert ((xi - 20) ^ 2 <= (a - xi) ^ 2) by nra.
  pose proof (pow2_ge_0 k). nra.
Qed.

(** The integrand of the lower bound at the node [j / 10] of the quadrature,
    for [sigma = 10]. *)
Lemma lower_integrand_node fuel k j c d :
  (27 < fuel)%nat -> (20 <= j)%nat ->
  INR j - 20 = d -> 0 <= c -> c <= (199 / 200) ^ (j * j) ->
  k ^ 2 * d ^ 2 * c / 2.50664 <=
  Spec.phi (0 + INR j * ((5 - 0) / 50)) *
  Vk_value fuel k (10 * (0 + INR j * ((5 - 0) / 50))).
Proof.
  intros Hf Hj Hd Hc Hp.
  assert (Hz : 0 + INR j * ((5 - 0) / 50) = INR j / 10) by lra.
  rewrite Hz.
  assert (Hj' : 20 <= INR j).
  { apply le_INR in Hj. rewrite (INR_lit 20) in Hj. exact Hj. }
  pose proof (Vk_value_clipped fuel k (10 * (INR j / 10)) Hf ltac:(lra)) as HV.
  replace (10 * (INR j / 10) - 20) with d in HV by lra.
  pose proof (phi_lower (INR j / 10)) as Hphi.
  pose proof (exp_grid_lower (j * j)) as He.
  rewrite mult_INR in He.
  replace (- (INR j * INR j) / 200) with (- (INR j / 10) ^ 2 / 2) in He
    by lra.
  assert (H1 : 0 <= k ^ 2 * d ^ 2)
    by (pose proof (pow2_ge_0 k); pose proof (pow2_ge_0 d); nra).
  assert (H2 : c / 2.50664 <= Spec.phi (INR j / 10)) by lra.
  assert (H3 : 0 <= c / 2.50664) by lra.
  replace (k ^ 2 * d ^ 2 * c / 2.50664)
    with (c / 2.50664 * (k ^ 2 * d ^ 2)) by lra.
  apply Rmult_le_compat; lra.
Qed.

(** Lower bounds on the powers of [199 / 200], by hundreds, tens and units
    of the exponent. *)
Lemma grid_power_10 : 0.95111 <= (199 / 200) ^ 10.
Proof. lra. Qed.

Lemma grid_power_100 : 0.60576 <= (199 / 200) ^ 100.
Proof.
  change 100%nat with (10 * 10)%nat. rewrite pow_mult.
  apply Rle_trans with (0.95111 ^ 10); [lra|].
  apply pow_incr. split; [lra | exact grid_power_10].
Qed.

Lemma grid_power_split q t u c :
  c <= 0.60576 ^ q * 0.95111 ^ t * (199 / 200) ^ u ->
  c <= (199 / 200) ^ (100 * q + 10 * t + u).
Proof.
  intros H. rewrite !pow_add, !pow_mult.
  assert (H1 : 0.60576 ^ q <= ((199 / 200) ^ 100) ^ q)
    by (apply pow_incr; split; [lra | exact grid_power_100]).
  assert (H2 : 0.95111 ^ t <= ((199 / 200) ^ 10) ^ t)
    by (apply pow_incr; split; [lra | exact grid_power_10]).
  assert (P1 : 0 <= 0.60576 ^ q) by (apply pow_le; lra).
  assert (P2 : 0 <= 0.95111 ^ t) by (apply pow_le; lra).
  assert (P3 : 0 <= (199 / 200) ^ u) by (apply pow_le; lra).
  eapply Rle_trans; [exact H|].
  apply Rmult_le_compat; [ apply Rmult_le_pos; assumption | exact P3
                         | apply Rmult_le_compat; assumption | lra ].
Qed.

Lemma grid_power_22 : 0.08837 <= (199 / 200) ^ (22 * 22).
Proof.
  change (22 * 22)%nat with (100 * 4 + 10 * 8 + 4)%nat.
  apply grid_power_split. lra.
Qed.

Lemma grid_power_23 : 0.07052 <= (199 / 200) ^ (23 * 23).
Proof.
  change (23 * 23)%nat with (100 * 5 + 10 * 2 + 9)%nat.
  apply grid_power_split. lra.
Qed.

Lemma grid_power_24 : 0.05572 <= (199 / 200) ^ (24 * 24).
Proof.
  change (24 * 24)%nat with (100 * 5 + 10 * 7 + 6)%nat.
  apply grid_power_split. lra.
Qed.

Lemma grid_power_25 : 0.04358 <= (199 / 200) ^ (25 * 25).
Proof.
  change (25 * 25)%nat with (100 * 6 + 10 * 2 + 5)%nat.
  apply grid_power_split. lra.
Qed.

Lemma grid_power_26 : 0.03375 <= (199 / 200) ^ (26 * 26).
Proof.
  change (26 * 26)%nat with (100 * 6 + 10 * 7 + 6)%nat.
  apply grid_power_split. lra.
Qed.

Lemma grid_power_27 : 0.02588 <= (199 / 200) ^ (27 * 27).
Proof.
  change (27 * 27)%nat with (100 * 7 + 10 * 2 + 9)%nat.
  apply grid_power_split. lra.
Qed.

Lemma grid_power_28 : 0.01964 <= (199 / 200) ^ (28 * 28).
Proof.
  change (28 * 28)%nat with (100 * 7 + 10 * 8 + 4)%nat.
  apply grid_power_split. lra.
Qed.

Lemma grid_power_29 : 0.01476 <= (199 / 200) ^ (29 * 29).
Proof.
  change (29 * 29)%nat with (100 * 8 + 10 * 4 + 1)%nat.
  apply grid_power_split. lra.
Qed.

Lemma grid_power_30 : 0.01098 <= (199 / 200) ^ (30 * 30).
Proof.
  change (30 * 30)%nat with (100 * 9 + 10 * 0 + 0)%nat.
  apply grid_power_split. lra.
Qed.

Lemma grid_power_31 : 0.008089 <= (199 / 200) ^ (31 * 31).
Proof.
  change (31 * 31)%nat with (100 * 9 + 10 * 6 + 1)%nat.
  apply grid_power_split. lra.
Qed.

Lemma grid_power_32 : 0.005898 <= (199 / 200) ^ (32 * 32).
Proof.
  change (32 * 32)%nat with (100 * 10 + 10 * 2 + 4)%nat.
  apply grid_power_split. lra.
Qed.

Lemma grid_power_33 : 0.004258 <= (199 / 200) ^ (33 * 33).
Proof.
  change (33 * 33)%nat with (100 * 10 + 10 * 8 + 9)%nat.
  apply grid_power_split. lra.
Qed.

Lemma grid_power_34 : 0.003043 <= (199 / 200) ^ (34 * 34).
Proof.
  change (34 * 34)%nat with (100 * 11 + 10 * 5 + 6)%nat.
  apply grid_power_split. lra.
Qed.

Lemma grid_power_35 : 0.002153 <= (199 / 200) ^ (35 * 35).
Proof.
  change (35 * 35)%nat with (100 * 12 + 10 * 2 + 5)%nat.
  apply grid_power_split. lra.
Qed.

Lemma grid_power_36 : 0.001508 <= (199 / 200) ^ (36 * 36).
Proof.
  change (36 * 36)%nat with (100 * 12 + 10 * 9 + 6)%nat.
  apply grid_power_split. lra.
Qed.

Lemma grid_power_37 : 0.001046 <= (199 / 200) ^ (37 * 37).
Proof.
  change (37 * 37)%nat with (100 * 13 + 10 * 6 + 9)%nat.
  apply grid_power_split. lra.
Qed.

Lemma grid_power_38 : 0.0007184 <= (199 / 200) ^ (38 * 38).
Proof.
  change (38 * 38)%nat with (100 * 14 + 10 * 4 + 4)%nat.
  apply grid_power_split. lra.
Qed.

(** The quadrature of the lower bound at [sigma = 10]: the nodes
    [z = 2.2, ..., 3.8], where [sigma z] is beyond the bracket of the search,
    already contribute [k ^ 2]. *)
Lemma lowerBound_sum_10 fuel k :
  (27 < fuel)%nat ->
  k ^ 2 <=
  2 * Spec.simpson (fun z => Spec.phi z * Vk_value fuel k (10 * z)) 0 5 50.
Proof.
  intros Hf.
  assert (HF : forall x, 0 <= Spec.phi x * Vk_value fuel k (10 * x)).
  { intros x. apply Rmult_le_pos; [left; apply phi_pos|].
    destruct (Vk_value_spec fuel k (10 * x) Hf) as [_ H].
    exact (is_Vk_nonneg _ _ _ H). }
  assert (E50 : INR 50 = 50) by (rewrite (INR_lit 50); reflexivity).
  unfold Spec.simpson. cbv zeta. rewrite E50.
  set (F := fun z => Spec.phi z * Vk_value fuel k (10 * z)) in *.
  change (50 - 1)%nat with (21 + (17 + 11))%nat.
  rewrite (interior_sum_app F 0 ((5 - 0) / 50) 21 (17 + 11) 1).
  rewrite (interior_sum_app F 0 ((5 - 0) / 50) 17 11 (1 + 21)).
  change (1 + 21 + 17)%nat with 39%nat. change (1 + 21)%nat with 22%nat.
  pose proof (interior_sum_nonneg F 0 ((5 - 0) / 50) 21 1 HF) as HA.
  pose proof (interior_sum_nonneg F 0 ((5 - 0) / 50) 11 39 HF) as HB.
  set (A := Spec.interior_sum F 0 ((5 - 0) / 50) 1 21) in *.
  set (B := Spec.interior_sum F 0 ((5 - 0) / 50) 39 11) in *.
  clearbody A B.
  pose proof (HF 0) as H0. pose proof (HF 5) as H5.
  rewrite !interior_sum_cons.
  change (Spec.interior_sum F 0 ((5 - 0) / 50) 39 0) with 0.
  unfold Spec.simpson_weight. cbn [Nat.odd Nat.even negb].
  pose proof (lower_integrand_node fuel k 22 0.08837 2 Hf ltac:(lia)
                ltac:(rewrite (INR_lit 22); change (Z.of_nat 22) with 22%Z; lra)
                ltac:(lra) grid_power_22) as N22.
  pose proof (lower_integrand_node fuel k 23 0.07052 3 Hf ltac:(lia)
                ltac:(rewrite (INR_lit 23); change (Z.of_nat 23) with 23%Z; lra)
                ltac:(lra) grid_power_23) as N23.
  pose proof (lower_integrand_node fuel k 24 0.05572 4 Hf ltac:(lia)
                ltac:(rewrite (INR_lit 24); change (Z.of_nat 24) with 24%Z; lra)
                ltac:(lra) grid_power_24) as N24.
  pose proof (lower_integrand_node fuel k 25 0.04358 5 Hf ltac:(lia)
                ltac:(rewrite (INR_lit 25); change (Z.of_nat 25) with 25%Z; lra)
                ltac:(lra) grid_power_25) as N25.
  pose proof (lower_integrand_node fuel k 26 0.03375 6 Hf ltac:(lia)
                ltac:(rewrite (INR_lit 26); change (Z.of_nat 26) with 26%Z; lra)
                ltac:(lra) grid_power_26) as N26.
  pose proof (lower_integrand_node fuel k 27 0.02588 7 Hf ltac:(lia)
                ltac:(rewrite (INR_lit 27); change (Z.of_nat 27) with 27%Z; lra)
                ltac:(lra) grid_power_27) as N27.
  pose proof (lower_integrand_node fuel k 28 0.01964 8 Hf ltac:(lia)
                ltac:(rewrite (INR_lit 28); change (Z.of_nat 28) with 28%Z; lra)
                ltac:(lra) grid_power_28) as N28.
  pose proof (lower_integrand_node fuel k 29 0.01476 9 Hf ltac:(lia)
                ltac:(rewrite (INR_lit 29); change (Z.of_nat 29) with 29%Z; lra)
                ltac:(lra) grid_power_29) as N29.
  pose proof (lower_integrand_node fuel k 30 0.01098 10 Hf ltac:(lia)
                ltac:(rewrite (INR_lit 30); change (Z.of_nat 30) with 30%Z; lra)
                ltac:(lra) grid_power_30) as N30.
  pose proof (lower_integrand_node fuel k 31 0.008089 11 Hf ltac:(lia)
                ltac:(rewrite (INR_lit 31); change (Z.of_nat 31) with 31%Z; lra)
                ltac:(lra) grid_power_31) as N31.
  pose proof (lower_integrand_node fuel k 32 0.005898 12 Hf ltac:(lia)
                ltac:(rewrite (INR_lit 32); change (Z.of_nat 32) with 32%Z; lra)
                ltac:(lra) grid_power_32) as N32.
  pose proof (lower_integrand_node fuel k 33 0.004258 13 Hf ltac:(lia)
                ltac:(rewrite (INR_lit 33); change (Z.of_nat 33) with 33%Z; lra)
                ltac:(lra) grid_power_33) as N33.
  pose proof (lower_integrand_node fuel k 34 0.003043 14 Hf ltac:(lia)
                ltac:(rewrite (INR_lit 34); change (Z.of_nat 34) with 34%Z; lra)
                ltac:(lra) grid_power_34) as N34.
  pose proof (lower_integrand_node fuel k 35 0.002153 15 Hf ltac:(lia)
                ltac:(rewrite (INR_lit 35); change (Z.of_nat 35) with 35%Z; lra)
                ltac:(lra) grid_power_35) as N35.
  pose proof (lower_integrand_node fuel k 36 0.001508 16 Hf ltac:(lia)
                ltac:(rewrite (INR_lit 36); change (Z.of_nat 36) with 36%Z; lra)
                ltac:(lra) grid_power_36) as N36.
  pose proof (lower_integrand_node fuel k 37 0.001046 17 Hf ltac:(lia)
                ltac:(rewrite (INR_lit 37); change (Z.of_nat 37) with 37%Z; lra)
                ltac:(lra) grid_power_37) as N37.
  pose proof (lower_integrand_node fuel k 38 0.0007184 18 Hf ltac:(lia)
                ltac:(rewrite (INR_lit 38); change (Z.of_nat 38) with 38%Z; lra)
                ltac:(lra) grid_power_38) as N38.
  pose proof (pow2_ge_0 k) as HK. set (K := k ^ 2) in *.
  change (Spec.phi (0 + INR 22 * ((5 - 0) / 50)) *
          Vk_value fuel k (10 * (0 + INR 22 * ((5 - 0) / 50))))
    with (F (0 + INR 22 * ((5 - 0) / 50))) in N22.
  change (Spec.phi (0 + INR 23 * ((5 - 0) / 50)) *
          Vk_value fuel k (10 * (0 + INR 23 * ((5 - 0) / 50))))
    with (F (0 + INR 23 * ((5 - 0) / 50))) in N23.
  change (Spec.phi (0 + INR 24 * ((5 - 0) / 50)) *
          Vk_value fuel k (10 * (0 + INR 24 * ((5 - 0) / 50))))
    with (F (0 + INR 24 * ((5 - 0) / 50))) in N24.
  change (Spec.phi (0 + INR 25 * ((5 - 0) / 50)) *
          Vk_value fuel k (10 * (0 + INR 25 * ((5 - 0) / 50))))
    with (F (0 + INR 25 * ((5 - 0) / 50))) in N25.
  change (Spec.phi (0 + INR 26 * ((5 - 0) / 50)) *
          Vk_value fuel k (10 * (0 + INR 26 * ((5 - 0) / 50))))
    with (F (0 + INR 26 * ((5 - 0) / 50))) in N26.
  change (Spec.phi (0 + INR 27 * ((5 - 0) / 50)) *
          Vk_value fuel k (10 * (0 + INR 27 * ((5 - 0) / 50))))
    with (F (0 + INR 27 * ((5 - 0) / 50))) in N27.
  change (Spec.phi (0 + INR 28 * ((5 - 0) / 50)) *
          Vk_value fuel k (10 * (0 + INR 28 * ((5 - 0) / 50))))
    with (F (0 + INR 28 * ((5 - 0) / 50))) in N28.
  change (Spec.phi (0 + INR 29 * ((5 - 0) / 50)) *
          Vk_value fuel k (10 * (0 + INR 29 * ((5 - 0) / 50))))
    with (F (0 + INR 29 * ((5 - 0) / 50))) in N29.
  change (Spec.phi (0 + INR 30 * ((5 - 0) / 50)) *
          Vk_value fuel k (10 * (0 + INR 30 * ((5 - 0) / 50))))
    with (F (0 + INR 30 * ((5 - 0) / 50))) in N30.
  change (Spec.phi (0 + INR 31 * ((5 - 0) / 50)) *
          Vk_value fuel k (10 * (0 + INR 31 * ((5 - 0) / 50))))
    with (F (0 + INR 31 * ((5 - 0) / 50))) in N31.
  change (Spec.phi (0 + INR 32 * ((5 - 0) / 50)) *
          Vk_value fuel k (10 * (0 + INR 32 * ((5 - 0) / 50))))
    with (F (0 + INR 32 * ((5 - 0) / 50))) in N32.
  change (Spec.phi (0 + INR 33 * ((5 - 0) / 50)) *
          Vk_value fuel k (10 * (0 + INR 33 * ((5 - 0) / 50))))
    with (F (0 + INR 33 * ((5 - 0) / 50))) in N33.
  change (Spec.phi (0 + INR 34 * ((5 - 0) / 50)) *
          Vk_value fuel k (10 * (0 + INR 34 * ((5 - 0) / 50))))
    with (F (0 + INR 34 * ((5 - 0) / 50))) in N34.
  change (Spec.phi (0 + INR 35 * ((5 - 0) / 50)) *
          Vk_value fuel k (10 * (0 + INR 35 * ((5 - 0) / 50))))
    with (F (0 + INR 35 * ((5 - 0) / 50))) in N35.
  change (Spec.phi (0 + INR 36 * ((5 - 0) / 50)) *
          Vk_value fuel k (10 * (0 + INR 36 * ((5 - 0) / 50))))
    with (F (0 + INR 36 * ((5 - 0) / 50))) in N36.
  change (Spec.phi (0 + INR 37 * ((5 - 0) / 50)) *
          Vk_value fuel k (10 * (0 + INR 37 * ((5 - 0) / 50))))
    with (F (0 + INR 37 * ((5 - 0) / 50))) in N37.
  change (Spec.phi (0 + INR 38 * ((5 - 0) / 50)) *
          Vk_value fuel k (10 * (0 + INR 38 * ((5 - 0) / 50))))
    with (F (0 + INR 38 * ((5 - 0) / 50))) in N38.
  clearbody F K. lra.
Qed.



(** X22. At [sigma = 10], the top of the range of the application, the
    [lowerBound] that [calculateCosts] returns is at least [k²]: the nodes of
    its quadrature with [sigma z > 20] are charged the distance to the
    bracket of the search. *)
Theorem lowerBound_at_sigma_10 (fuel : nat) (k : R) :
  k <> 0 -> (100 < fuel)%nat ->
  exists r, calculateCosts fuel k 10 = Some r /\ k ^ 2 <= lowerBound r.
Proof.
  intros Hk Hf. rewrite calculateCosts_spec by assumption.
  eexists. split; [reflexivity|]. cbv zeta. cbn [lowerBound].
  apply lowerBound_sum_10. lia.
Qed.

Lemma lowerBound_at_sigma_10_witness :
  1 <> 0 /\ (100 < 101)%nat /\
  exists r, calculateCosts 101 1 10 = Some r /\ 1 ^ 2 <= lowerBound r.
Proof.
  split; [lra|]. split; [lia|].
  apply (lowerBound_at_sigma_10 101 1); [lra | lia].
Defined.






(** * Ranges of the costs *)

Lemma x_exp_half_le x : 0 <= x -> x * exp (- x / 2) <= 2.
Proof.
  intros Hx. pose proof (exp_ineq1_le (x / 2)) as H1.
  pose proof (exp_pos (x / 2)) as Hp.
  replace (- x / 2) with (- (x / 2)) by lra. rewrite exp_Ropp.
  apply (Rmult_le_reg_r (exp (x / 2))); [exact Hp|].
  rewrite Rmult_assoc, Rinv_l by lra. lra.
Qed.

Lemma h_le_40 a : Spec.h a <= 40.
Proof.
  pose proof (h_upper a). pose proof (x_exp_half_le (a ^ 2) (pow2_ge_0 a)).
  lra.
Qed.

Lemma phi_le_half z : Spec.phi z <= 1 / 2.
Proof.
  unfold Spec.phi. pose proof PI2_3_2.
  assert (Hs : 2 <= sqrt (2 * PI)).
  { apply Rle_trans with (sqrt 4); [|apply sqrt_le_1; lra].
    replace 4 with (2 * 2) by lra. rewrite sqrt_square; lra. }
  assert (Hi : / sqrt (2 * PI) <= / 2) by (apply Rinv_le_contravar; lra).
  assert (Hp : 0 < / sqrt (2 * PI)) by (apply Rinv_0_lt_compat; lra).
  assert (He : exp (- z ^ 2 / 2) <= 1)
    by (apply exp_le_1; pose proof (pow2_ge_0 z); lra).
  pose proof (exp_pos (- z ^ 2 / 2)).
  unfold Rdiv. rewrite Rmult_1_l. nra.
Qed.

(** The search point of [calculateVk] is in [-20, 20], so for [xi] in
    [0, 50] the value is at most [4900 k² + 40]. *)
Lemma Vk_value_upper fuel k xi :
  (27 < fuel)%nat -> 0 <= xi <= 50 ->
  Vk_value fuel k xi <= k ^ 2 * 4900 + 40.
Proof.
  intros Hf Hxi. unfold Vk_value.
  destruct (calculateVk_point fuel xi k Hf) as (a & -> & Ha).
  unfold Spec.stage_cost. pose proof (h_le_40 a). pose proof (pow2_ge_0 k).
  assert ((a - xi) ^ 2 <= 4900) by nra.
  nra.
Qed.

(** C7, as amended. On the ranges of the application, [0 < k <= 1] and
    [0 < sigma <= 10], the engine returns a result whose three costs are
    non-negative and bounded ([affineCost <= 101], [nonlinCost <= 100],
    [lowerBound <= 25000]) and whose [lambda] lies in [0, 1]. *)
Theorem calculateCosts_ranges (fuel : nat) (k sigma : R) :
  0 < k <= 1 -> 0 < sigma <= 10 -> (100 < fuel)%nat ->
  exists r,
    calculateCosts fuel k sigma = Some r /\
    0 <= affineCost r <= 101 /\ 0 <= nonlinCost r <= 100 /\
    0 <= lowerBound r <= 25000 /\
    0 <= lambda r <= 1.
Proof.
  intros [Hk Hk1] [Hs Hs1] Hf. eexists.
  split; [apply calculateCosts_spec; [lra | exact Hf]|].
  cbv zeta. cbn [lambda affineCost nonlinCost lowerBound].
  pose proof (lambda_in_unit (Spec.characteristic k sigma) 1e-6 100 sigma Hs)
    as Hl.
  set (lam := _ / sigma) in *.
  assert (Hks : 0 <= k * k * sigma * sigma) by nra.
  assert (Hkk : 0 <= k * k <= 1) by nra.
  assert (Hss : 0 <= sigma * sigma <= 100) by nra.
  assert (Hks1 : k * k * sigma * sigma <= 100).
  { replace (k * k * sigma * sigma) with (k * k * (sigma * sigma)) by ring.
    replace 100 with (1 * 100) by ring.
    apply Rmult_le_compat; lra. }
  assert (Hsl : 0 <= sigma * sigma * lam * lam) by nra.
  split; [|split; [|split]].
  - assert (H1 : 0 <= (1 - lam) ^ 2 <= 1) by nra.
    assert (H2 : 0 <= sigma * sigma * lam * lam
                      / (1 + sigma * sigma * lam * lam) <= 1).
    { split.
      - apply Rmult_le_pos; [exact Hsl|].
        left. apply Rinv_0_lt_compat. lra.
      - apply (Rmult_le_reg_r (1 + sigma * sigma * lam * lam)); [lra|].
        unfold Rdiv. rewrite Rmult_assoc, Rinv_l by lra. lra. }
    split; [nra|]. nra.
  - pose proof sqrt_2_PI_bounds. pose proof (h_nonneg sigma).
    pose proof (h_le_40 sigma).
    replace (2 * k * k * sigma * sigma) with (2 * (k * k * sigma * sigma))
      by ring.
    split; nra.
  - set (F := fun z => Spec.phi z * Vk_value fuel k (sigma * z)).
    assert (Hlo : 0 <= Spec.simpson F 0 5 50).
    { apply simpson_nonneg; [|lra|lia].
      intros z. apply Rmult_le_pos; [left; apply phi_pos|].
      apply (is_Vk_nonneg (sigma * z) k). apply Vk_value_spec. lia. }
    assert (Hhi : Spec.simpson F 0 5 50 <= 2470 * (5 - 0)).
    { rewrite <- (simpson_constant 2470 0 5 50) by (reflexivity || lia).
      apply simpson_le_on; [lra | lia |].
      intros z Hz. unfold F.
      pose proof (phi_pos z). pose proof (phi_le_half z).
      assert (Hv : 0 <= Vk_value fuel k (sigma * z))
        by (apply (is_Vk_nonneg (sigma * z) k), Vk_value_spec; lia).
      pose proof (Vk_value_upper fuel k (sigma * z) ltac:(lia) ltac:(nra)).
      assert (k ^ 2 <= 1) by nra.
      nra. }
    lra.
  - exact Hl.
Qed.

Lemma calculateCosts_ranges_witness :
  0 < 0.2 <= 1 /\ 0 < 5 <= 10 /\ (100 < 101)%nat /\
  exists r,
    calculateCosts 101 0.2 5 = Some r /\
    0 <= affineCost r <= 101 /\ 0 <= nonlinCost r <= 100 /\
    0 <= lowerBound r <= 25000 /\
    0 <= lambda r <= 1.
Proof.
  split; [lra|]. split; [lra|]. split; [lia|].
  apply (calculateCosts_ranges 101 0.2 5); [lra | lra | lia].
Defined.

(** C7, as stated, fails: at [k = 1], [sigma = 1e200] the bisection ends at
    [lambda = 1] and the affine cost is [Infinity * 0], which is NaN: neither
    finite nor non-negative. *)
Lemma calculateCosts_overflow :
  Binary64.solveAffineLambda 101 1 1e200 = Some 1%float /\
  exists v,
    Binary64.affineCost 101 1 1e200 = Some v /\
    PrimFloat.is_nan v = true /\ PrimFloat.leb 0 v = false.
Proof.
  split; [vm_compute; reflexivity|].
  exists PrimFloat.nan. repeat split; vm_compute; reflexivity.
Qed.
